(** * leads-import: the resilient JSON request function and the Airtable
    record repository

    A shallow embedding of [src/http.mjs] ([requestJSON]), of the part
    of [src/config.mjs] the repository reads, and of
    [src/airtableRepo.mjs] ([chunk], [quote], [AirtableRepo]).

    Conventions of the embedding.
    - A JavaScript number is an integer [Z]; the counters, status codes
      and delays of this code are integers far below 2^53, where the
      double arithmetic of the engine is exact.
    - A JavaScript string is a [string] read as its UTF-8 bytes.
    - An [async] function is a function from the world before the call
      to its settlement ([Resolved] or [Rejected]) and the world after
      it.  The world holds the state of the remote server and the
      chronological log of what the program did to the outside: the
      network calls it issued and the timers it waited for.  Real time
      is not represented, only the requested length of each wait. *)

From Stdlib Require Import ZArith Lia.
From stdpp Require Import base option list strings gmap pretty.

Set Warnings "-register-all,-clear-no-such-hyp".

Open Scope string_scope.
Open Scope list_scope.
Open Scope Z_scope.

(** ** JavaScript values *)

Module Js.

Inductive value : Type :=
  | VUndefined
  | VNull
  | VBool (b : bool)
  | VNum (n : Z)
  | VStr (s : string)
  | VArr (items : list value)
  | VObj (props : list (string * value)).

(** A thrown or rejected value: [new Error(message)], or the
    [TypeError] the engine raises on a property read of [undefined] or
    [null] and on iterating something that is not iterable. *)
Inductive exn : Type :=
  | Error (message : string)
  | TypeError.

(** How a promise settles. *)
Inductive Outcome (A : Type) : Type :=
  | Resolved (a : A)
  | Rejected (e : exn).
Arguments Resolved {A} a.
Arguments Rejected {A} e.

(** [Boolean(v)], also the test of [if (v)], [!v] and [v || d]. *)
Definition truthy (v : value) : bool :=
  match v with
  | VUndefined | VNull => false
  | VBool b => b
  | VNum n => negb (n =? 0)
  | VStr s => negb (String.eqb s "")
  | VArr _ | VObj _ => true
  end.

(** [v || d] *)
Definition or_else (v d : value) : value := if truthy v then v else d.

(** [String(v)], which is also how a template literal renders [v]. *)
Fixpoint to_String (v : value) : string :=
  match v with
  | VUndefined => "undefined"
  | VNull => "null"
  | VBool true => "true"
  | VBool false => "false"
  | VNum n => pretty n
  | VStr s => s
  | VArr items =>
      String.concat ","
        (List.map (fun x => match x with
                            | VUndefined | VNull => ""
                            | _ => to_String x
                            end) items)
  | VObj _ => "[object Object]"
  end.

(** The first binding of [k] in a property list. *)
Fixpoint assoc (k : string) (props : list (string * value)) : option value :=
  match props with
  | [] => None
  | (k', v) :: rest => if String.eqb k k' then Some v else assoc k rest
  end.

(** [v[k]] for a property name [k] that is not a built-in member of
    strings or arrays (the repository reads [records], [fields], [id]
    and the configured key field): [None] stands for the [TypeError] of
    reading a property of [undefined] or [null]. *)
Definition get (v : value) (k : string) : option value :=
  match v with
  | VUndefined | VNull => None
  | VObj props => Some (default VUndefined (assoc k props))
  | _ => Some VUndefined
  end.

(** [v?.[k]] *)
Definition get_opt (v : value) (k : string) : value :=
  default VUndefined (get v k).

(** The elements [for (const x of v)] and [...v] run through; [None]
    stands for the [TypeError] of a value that is not iterable.  A
    string yields its characters (exact for ASCII text). *)
Definition elements (v : value) : option (list value) :=
  match v with
  | VArr items => Some items
  | VStr s => Some ((fun c => VStr (String c EmptyString)) <$> String.list_ascii_of_string s)
  | _ => None
  end.

(** The indexed view of a value, behind [v.length] and [v[0]]: the
    items of an array, the characters of a string, and nothing for a
    value with no [length] and no index [0] (booleans, numbers, and
    objects that carry no property of these names).  An object with a
    [length] or a [0] of its own is outside this view: what is proved
    of [findOneByField] and [upsertByKey] takes the records of a reply
    as an array, as the store lists them. *)
Definition indexed (v : value) : list value :=
  default [] (elements v).

(** [v[0]]; [None] stands for the [TypeError] on [undefined] and [null]. *)
Definition first_of (v : value) : option value :=
  match v with
  | VUndefined | VNull => None
  | _ => Some (default VUndefined (head (indexed v)))
  end.

(** The one-character string of the double quote, and of the backslash. *)
Definition dquote : string := String (Ascii.ascii_of_nat 34) EmptyString.
Definition backslash : string := String (Ascii.ascii_of_nat 92) EmptyString.

(** [s.replace(/"/g, '\\"')]: a backslash before every double quote. *)
Fixpoint escape_dquotes (s : string) : string :=
  match s with
  | EmptyString => EmptyString
  | String c rest =>
      if Ascii.eqb c (Ascii.ascii_of_nat 34)
      then backslash +:+ String c (escape_dquotes rest)
      else String c (escape_dquotes rest)
  end.

(** [s.toLowerCase()] on ASCII text. *)
Fixpoint toLowerCase (s : string) : string :=
  match s with
  | EmptyString => EmptyString
  | String c rest =>
      let n := Ascii.nat_of_ascii c in
      String (if (65 <=? n)%nat && (n <=? 90)%nat
              then Ascii.ascii_of_nat (n + 32) else c)
             (toLowerCase rest)
  end.

(** The bytes [encodeURIComponent] leaves as they are: letters, digits
    and [- _ . ! ~ * ' ( )]. *)
Definition unreserved (c : Ascii.ascii) : bool :=
  let n := Ascii.nat_of_ascii c in
  ((65 <=? n)%nat && (n <=? 90)%nat)
  || ((97 <=? n)%nat && (n <=? 122)%nat)
  || ((48 <=? n)%nat && (n <=? 57)%nat)
  || bool_decide (n ∈ [45; 95; 46; 33; 126; 42; 39; 40; 41]%nat).

Definition hex_digit (n : nat) : Ascii.ascii :=
  Ascii.ascii_of_nat (if (n <? 10)%nat then 48 + n else 55 + n).

(** [encodeURIComponent(s)]: every other byte of the UTF-8 text as
    [%XX] in upper-case hexadecimal. *)
Fixpoint encodeURIComponent (s : string) : string :=
  match s with
  | EmptyString => EmptyString
  | String c rest =>
      if unreserved c then String c (encodeURIComponent rest)
      else
        let n := Ascii.nat_of_ascii c in
        String (Ascii.ascii_of_nat 37) (String (hex_digit (n / 16)) (String (hex_digit (n mod 16))
          (encodeURIComponent rest)))
  end.

End Js.
Import Js.

(** ** The asynchronous world *)

(** The [options] object handed to [fetch]. *)
Record Options : Type := mkOptions {
  method : option string;
  headers : option (list (string * string));
  body : option string
}.

(** [{}] *)
Definition no_options : Options := mkOptions None None None.

(** What the program reads of a [fetch] response.  [ok] is the flag
    the transport sets, which the code reads as it is; [text] and
    [json] are the settlements of [res.text()] and [res.json()]. *)
Record Response : Type := mkResponse {
  status : Z;
  ok : bool;
  text : Outcome string;
  json : Outcome value
}.

Inductive Event : Type :=
  | Fetch (url : string) (options : Options)
  | Sleep (ms : Z).

Definition is_fetch (e : Event) : bool :=
  match e with Fetch _ _ => true | Sleep _ => false end.

(** The number of network calls in a log. *)
Definition calls (lg : list Event) : nat := length (filter is_fetch lg).

(** The methods of the network calls of a log, in order; [None] is the
    default of [fetch], GET. *)
Definition methods (lg : list Event) : list (option string) :=
  omap (fun e => match e with Fetch _ options => Some (method options) | Sleep _ => None end) lg.

(** The waits of a log, in order. *)
Definition sleeps (lg : list Event) : list Z :=
  omap (fun e => match e with Sleep ms => Some ms | Fetch _ _ => None end) lg.

(** The time a log asks to wait, all waits added up. *)
Definition total_wait (lg : list Event) : Z := foldr Z.add 0 (sleeps lg).

Record World (St : Type) : Type := mkWorld {
  server : St;
  log : list Event
}.
Arguments mkWorld {St} server log.
Arguments server {St} w.
Arguments log {St} w.

(** An asynchronous computation over a server of state [St]. *)
Definition Async (St A : Type) : Type := World St -> Outcome A * World St.

Definition ret {St A} (a : A) : Async St A := fun w => (Resolved a, w).

Definition throw {St A} (e : exn) : Async St A := fun w => (Rejected e, w).

Definition bind {St A B} (m : Async St A) (k : A -> Async St B) : Async St B :=
  fun w =>
    match m w with
    | (Resolved a, w') => k a w'
    | (Rejected e, w') => (Rejected e, w')
    end.

(** [await p] for a promise whose settlement is already fixed. *)
Definition settle {St A} (p : Outcome A) : Async St A := fun w => (p, w).

(** [p.catch(() => d)] *)
Definition catch_with {A} (p : Outcome A) (d : A) : A :=
  match p with Resolved a => a | Rejected _ => d end.

(** A thrown [TypeError] for [None]. *)
Definition checked {St A} (o : option A) : Async St A :=
  match o with Some a => ret a | None => throw TypeError end.

Declare Scope async_scope.
Delimit Scope async_scope with async.
Notation "x <~ m ;; k" := (bind m (fun x => k))
  (at level 100, m at next level, right associativity) : async_scope.
Notation "m ;;; k" := (bind m (fun _ => k))
  (at level 100, right associativity) : async_scope.
Open Scope async_scope.

(** ** src/http.mjs *)

Module Http.

(** The third argument of [requestJSON], each property present or not. *)
Record RetryConfig : Type := mkRetryConfig {
  cfg_retries : option Z;
  cfg_baseDelayMs : option Z
}.

(** [{ retries = 5, baseDelayMs = 400 } = {}] *)
Definition retries_of (rc : option RetryConfig) : Z :=
  default 5 (rc ≫= cfg_retries).
Definition baseDelayMs_of (rc : option RetryConfig) : Z :=
  default 400 (rc ≫= cfg_baseDelayMs).

(** [res.status === 429 || res.status >= 500] *)
Definition retryable (res : Response) : bool :=
  (status res =? 429) || (500 <=? status res).

(** [await res.text().catch(() => "")] *)
Definition text_or_empty (res : Response) : string := catch_with (text res) "".

(** The values [i] of [for (let i = 0; i <= retries; i++)]. *)
Definition attempt_indices (retries : Z) : list Z :=
  Z.of_nat <$> seq 0 (Z.to_nat (retries + 1)).

Section Transport.

Context {St : Type}.

(** The network: how the server answers a call in a given state, and
    the state it is left in.  A [Rejected] answer is a transport
    failure. *)
Variable fetch : string -> Options -> St -> Outcome Response * St.

(** [await fetch(url, options)] *)
Definition call_fetch (url : string) (options : Options) : Async St Response :=
  fun w =>
    let (o, st') := fetch url options (server w) in
    (o, mkWorld st' (log w ++ [Fetch url options])).

(** [await sleep(ms)] *)
Definition sleep (ms : Z) : Async St unit :=
  fun w => (Resolved tt, mkWorld (server w) (log w ++ [Sleep ms])).

(** One run of the loop body at index [i]: [Some v] is [return v],
    [None] is [continue]. *)
Definition attempt (url : string) (options : Options) (retries baseDelayMs : Z)
    (i : Z) : Async St (option value) :=
  res <~ call_fetch url options ;;
  if retryable res then
    if i =? retries then
      throw (Error ("HTTP " +:+ pretty (status res) +:+ " after "
                    +:+ pretty retries +:+ " retries: " +:+ text_or_empty res))
    else
      sleep (baseDelayMs * 2 ^ i) ;;;
      ret None
  else if negb (ok res) then
    throw (Error ("HTTP " +:+ pretty (status res) +:+ ": " +:+ text_or_empty res))
  else
    v <~ settle (json res) ;;
    ret (Some v).

(** The loop over the remaining indices; [None] when the loop ends
    without having returned. *)
Fixpoint attempts (url : string) (options : Options) (retries baseDelayMs : Z)
    (indices : list Z) : Async St (option value) :=
  match indices with
  | [] => ret None
  | i :: rest =>
      r <~ attempt url options retries baseDelayMs i ;;
      match r with
      | Some v => ret (Some v)
      | None => attempts url options retries baseDelayMs rest
      end
  end.

(** [requestJSON(url, options = {}, { retries = 5, baseDelayMs = 400 } = {})];
    falling off the end of the loop resolves with [undefined]. *)
Definition requestJSON (url : string) (options : option Options)
    (rc : option RetryConfig) : Async St value :=
  r <~ attempts url (default no_options options) (retries_of rc)
         (baseDelayMs_of rc) (attempt_indices (retries_of rc)) ;;
  ret (default VUndefined r).

(** The answers of the server to [n] successive identical calls, and
    the state they leave it in. *)
Fixpoint answers (url : string) (options : Options) (n : nat) (st : St)
    : list (Outcome Response) :=
  match n with
  | O => []
  | S n' =>
      let (o, st') := fetch url options st in
      o :: answers url options n' st'
  end.

Fixpoint state_after (url : string) (options : Options) (n : nat) (st : St) : St :=
  match n with
  | O => st
  | S n' => state_after url options n' (snd (fetch url options st))
  end.

(** How the call settles on the answer [o] of an attempt that is not
    retried: the last permitted one, or one whose answer is not
    retryable. *)
Definition settlement (retries : Z) (o : Outcome Response) : Outcome value :=
  match o with
  | Rejected e => Rejected e
  | Resolved res =>
      if retryable res then
        Rejected (Error ("HTTP " +:+ pretty (status res) +:+ " after "
                         +:+ pretty retries +:+ " retries: " +:+ text_or_empty res))
      else if negb (ok res) then
        Rejected (Error ("HTTP " +:+ pretty (status res) +:+ ": "
                         +:+ text_or_empty res))
      else json res
  end.

(** The log of [k] retried attempts starting at index [a]: each is a
    call followed by its backoff wait. *)
Definition backoff_trace (url : string) (options : Options) (baseDelayMs : Z)
    (a k : nat) : list Event :=
  flat_map (fun j => [Fetch url options; Sleep (baseDelayMs * 2 ^ Z.of_nat j)])
           (seq a k).

End Transport.

End Http.
Import Http.

(** ** src/config.mjs *)

Module Config.

(** The environment variables the repository depends on, each set or
    not. *)
Record Env : Type := mkEnv {
  AIRTABLE : option string;
  AIRTABLE_TOKEN : option string;
  STRICT_DUPLICATES : option string
}.

(** The members of [cfg] the repository reads: [cfg.airtable.baseId],
    [cfg.airtable.token], [cfg.airtable.limits] and
    [cfg.behavior.strictDuplicates]. *)
Record Cfg : Type := mkCfg {
  baseId : option string;
  token : option string;
  batchSize : nat;
  politeDelayMs : Z;
  strictDuplicates : bool
}.

Definition cfg (env : Env) : Cfg :=
  {| baseId := AIRTABLE env;
     token := AIRTABLE_TOKEN env;
     batchSize := 10;
     politeDelayMs := 120;
     strictDuplicates :=
       String.eqb (toLowerCase (default "true" (STRICT_DUPLICATES env))) "true" |}.

End Config.
Import Config.

(** ** src/airtableRepo.mjs *)

Module Repo.

(** [Math.ceil(n / size)] for a positive [size]. *)
Definition ceil_div (n size : nat) : nat :=
  (n / size + (if (n mod size =? 0)%nat then 0 else 1))%nat.

(** [arr.slice(from, to)] for [0 <= from <= to]. *)
Definition slice {A} (arr : list A) (from to : nat) : list A :=
  take (to - from) (drop from arr).

(** [chunk(arr, size)], called with the sizes 10 and 20. *)
Definition chunk {A} (arr : list A) (size : nat) : list (list A) :=
  (fun i => slice arr (i * size) ((i + 1) * size))
    <$> seq 0 (ceil_div (length arr) size).

(** [quote(v)] *)
Definition quote (v : value) : string := escape_dquotes (to_String v).

(** A template literal's rendering of a variable that may be unset. *)
Definition render (o : option string) : string := default "undefined" o.

Section Repository.

Context {St : Type}.
Variable fetch : string -> Options -> St -> Outcome Response * St.

(** [JSON.stringify], the engine's serialiser. *)
Variable JSON_stringify : value -> string.

Variable env : Env.

Definition API : string :=
  "https://api.airtable.com/v0/" +:+ render (baseId (cfg env)).

Definition HEADERS : list (string * string) :=
  [("Authorization", "Bearer " +:+ render (token (cfg env)));
   ("Content-Type", "application/json")].

(** [`{${field}} = "${quote(value)}"`] *)
Definition equals_formula (field : string) (v : value) : string :=
  "{" +:+ field +:+ "} = " +:+ dquote +:+ quote v +:+ dquote.

(** [`${API}/${encodeURIComponent(table)}?filterByFormula=${filter}&pageSize=100`] *)
Definition query_url (table formula : string) : string :=
  API +:+ "/" +:+ encodeURIComponent table +:+ "?filterByFormula="
      +:+ encodeURIComponent formula +:+ "&pageSize=100".

(** [`${API}/${encodeURIComponent(table)}`] *)
Definition table_url (table : string) : string :=
  API +:+ "/" +:+ encodeURIComponent table.

(** [{ headers: HEADERS }] *)
Definition get_options : Options := mkOptions None (Some HEADERS) None.

(** [{ method, headers: HEADERS, body }] *)
Definition send_options (meth body : string) : Options :=
  mkOptions (Some meth) (Some HEADERS) (Some body).

(** [json.records || []] *)
Definition records_or_empty (json : value) : Async St value :=
  records <~ checked (get json "records") ;;
  ret (or_else records (VArr [])).

Definition findAllByField (table field : string) (v : value) : Async St value :=
  json <~ requestJSON fetch (query_url table (equals_formula field v))
            (Some get_options) None ;;
  records_or_empty json.

Definition findOneByField (table field : string) (v : value) : Async St value :=
  all <~ findAllByField table field v ;;
  if (1 <? length (indexed all))%nat && strictDuplicates (cfg env) then
    throw (Error ("Duplicate " +:+ table +:+ " where " +:+ field +:+ "="
                  +:+ dquote +:+ to_String v +:+ dquote +:+ " ("
                  +:+ pretty (length (indexed all)) +:+ " found)"))
  else
    ret (or_else (default VUndefined (head (indexed all))) VNull).

(** The loop shared by [createMany] ([meth] is POST) and [updateMany]
    ([meth] is PATCH), over the groups still to send, with the [out]
    array so far. *)
Fixpoint send_groups (meth table : string) (groups : list (list value))
    (out : list value) : Async St (list value) :=
  match groups with
  | [] => ret out
  | group :: rest =>
      json <~ requestJSON fetch (table_url table)
                (Some (send_options meth
                         (JSON_stringify (VObj [("records", VArr group)]))))
                None ;;
      records <~ records_or_empty json ;;
      items <~ checked (elements records) ;;
      sleep (politeDelayMs (cfg env)) ;;;
      send_groups meth table rest (out ++ items)
  end.

Definition createMany (table : string) (records : list value) : Async St value :=
  out <~ send_groups "POST" table (chunk records (batchSize (cfg env))) [] ;;
  ret (VArr out).

Definition updateMany (table : string) (records : list value) : Async St value :=
  out <~ send_groups "PATCH" table (chunk records (batchSize (cfg env))) [] ;;
  ret (VArr out).

Definition upsertByKey (table keyField : string) (fields : value) : Async St value :=
  keyVal <~ checked (get fields keyField) ;;
  if negb (truthy keyVal) then
    throw (Error ("Upsert missing " +:+ keyField))
  else
    existing <~ findOneByField table keyField keyVal ;;
    if truthy existing then
      id <~ checked (get existing "id") ;;
      json <~ requestJSON fetch (table_url table +:+ "/" +:+ to_String id)
                (Some (send_options "PATCH"
                         (JSON_stringify (VObj [("fields", fields)]))))
                None ;;
      checked (get json "id")
    else
      json <~ requestJSON fetch (table_url table)
                (Some (send_options "POST"
                         (JSON_stringify
                            (VObj [("records", VArr [VObj [("fields", fields)]])]))))
                None ;;
      records <~ checked (get json "records") ;;
      created <~ checked (first_of records) ;;
      checked (get created "id").

(** The inner loop of [findRecordsByKeys] over the records of one
    reply. *)
Fixpoint index_records (keyField : string) (records : list value)
    (map : gmap string value) : Async St (gmap string value) :=
  match records with
  | [] => ret map
  | rec :: rest =>
      flds <~ checked (get rec "fields") ;;
      let val := get_opt flds keyField in
      if truthy val then
        id <~ checked (get rec "id") ;;
        index_records keyField rest (<[to_String val := id]> map)
      else
        index_records keyField rest map
  end.

(** The outer loop of [findRecordsByKeys] over the groups of
    conditions. *)
Fixpoint query_groups (table keyField : string) (groups : list (list string))
    (map : gmap string value) : Async St (gmap string value) :=
  match groups with
  | [] => ret map
  | group :: rest =>
      json <~ requestJSON fetch
                (query_url table ("OR(" +:+ String.concat "," group +:+ ")"))
                (Some get_options) None ;;
      records <~ records_or_empty json ;;
      items <~ checked (elements records) ;;
      map' <~ index_records keyField items map ;;
      query_groups table keyField rest map'
  end.

Definition findRecordsByKeys (table keyField : string) (keys : list value)
    : Async St (gmap string value) :=
  let parts := equals_formula keyField <$> List.filter truthy keys in
  query_groups table keyField (chunk parts 20) ∅.

(** *** What the store does and says during a run *)

(** The request of one batch of [createMany] or [updateMany]. *)
Definition batch_request (meth table : string) (group : list value)
    : string * Options :=
  (table_url table,
   send_options meth (JSON_stringify (VObj [("records", VArr group)]))).

(** The request of one group of conditions of [findRecordsByKeys]. *)
Definition group_request (table : string) (group : list string)
    : string * Options :=
  (query_url table ("OR(" +:+ String.concat "," group +:+ ")"), get_options).

(** The three requests of [upsertByKey]: the lookup of the key, the
    update of the record found, the creation of a new record. *)
Definition lookup_request (table field : string) (v : value) : string * Options :=
  (query_url table (equals_formula field v), get_options).

Definition patch_request (table : string) (id fields : value) : string * Options :=
  (table_url table +:+ "/" +:+ to_String id,
   send_options "PATCH" (JSON_stringify (VObj [("fields", fields)]))).

Definition create_request (table : string) (fields : value) : string * Options :=
  (table_url table,
   send_options "POST"
     (JSON_stringify (VObj [("records", VArr [VObj [("fields", fields)]])]))).

(** [serves st requests replies st']: from the state [st] the store
    answers each of the [requests] in turn, at the first attempt, with
    a success whose body parses to the reply of the same rank, and is
    left in the state [st']. *)
Inductive serves : St -> list (string * Options) -> list value -> St -> Prop :=
  | serves_nil st : serves st [] [] st
  | serves_cons st url options res st1 reply requests replies st' :
      fetch url options st = (Resolved res, st1) ->
      retryable res = false ->
      ok res = true ->
      json res = Resolved reply ->
      serves st1 requests replies st' ->
      serves st ((url, options) :: requests) (reply :: replies) st'.

End Repository.

(** The records [json.records || []] runs through in a [for ... of] or
    a spread, when reading them raises no [TypeError]. *)
Definition reply_records (json : value) : option (list value) :=
  get json "records" ≫= fun records => elements (or_else records (VArr [])).

(** The entry a record adds to the key index: its key, as a string,
    and its identifier, when the key is truthy. *)
Definition key_entry (keyField : string) (rec : value) : option (string * value) :=
  let val := get_opt (get_opt rec "fields") keyField in
  if truthy val then Some (to_String val, get_opt rec "id") else None.

(** [map.set(k, v)] for each entry in turn. *)
Definition set_all (entries : list (string * value)) (map : gmap string value)
    : gmap string value :=
  foldl (fun m e => <[e.1 := e.2]> m) map entries.

End Repo.
Import Repo.

(** ** Reading escaped text and delayed service *)

(** Whether every double quote of [s] comes right after a backslash;
    [after_backslash] tells whether the character before [s] is one. *)
Fixpoint dquotes_escaped (after_backslash : bool) (s : string) : bool :=
  match s with
  | EmptyString => true
  | String c rest =>
      if Ascii.eqb c (Ascii.ascii_of_nat 34)
      then after_backslash && dquotes_escaped false rest
      else dquotes_escaped (Ascii.eqb c (Ascii.ascii_of_nat 92)) rest
  end.

(** [s] without the backslash that stands right before a double
    quote. *)
Fixpoint drop_dquote_escapes (s : string) : string :=
  match s with
  | EmptyString => EmptyString
  | String c rest =>
      match rest with
      | String c' rest' =>
          if Ascii.eqb c (Ascii.ascii_of_nat 92) && Ascii.eqb c' (Ascii.ascii_of_nat 34)
          then String c' (drop_dquote_escapes rest')
          else String c (drop_dquote_escapes rest)
      | EmptyString => String c EmptyString
      end
  end.

(** The number of double quotes of [s]. *)
Fixpoint count_dquotes (s : string) : nat :=
  match s with
  | EmptyString => 0%nat
  | String c rest =>
      ((if Ascii.eqb c (Ascii.ascii_of_nat 34) then 1 else 0) + count_dquotes rest)%nat
  end.

(** The error of a request the store refuses at the first attempt: the
    transport failure itself, or the status error of an answer that is
    neither [ok] nor retryable. *)
Definition refusal (o : Outcome Response) : exn :=
  match o with
  | Rejected e => e
  | Resolved res =>
      Error ("HTTP " +:+ pretty (status res) +:+ ": " +:+ text_or_empty res)
  end.

(** An answer that is refused: not a response that is retryable or
    [ok]. *)
Definition refused (o : Outcome Response) : Prop :=
  forall res, o = Resolved res -> retryable res = false /\ ok res = false.

Section Delivery.

Context {St : Type}.
Variable fetch : string -> Options -> St -> Outcome Response * St.

(** [delivers st requests outcomes st']: from the state [st] the store
    answers each of the [requests] in turn with [k] retryable answers,
    [k] within the five retries of the default configuration, and then
    a success whose body parses to [reply], for the outcome [(k, reply)]
    of the same rank; it is left in the state [st']. *)
Inductive delivers : St -> list (string * Options) -> list (nat * value) -> St -> Prop :=
  | delivers_nil st : delivers st [] [] st
  | delivers_cons st url options k rs res reply requests outcomes st' :
      (k <= 5)%nat ->
      answers fetch url options (S k) st = (Resolved <$> rs) ++ [Resolved res] ->
      Forall (fun r => retryable r = true) rs ->
      retryable res = false ->
      ok res = true ->
      json res = Resolved reply ->
      delivers (state_after fetch url options (S k) st) requests outcomes st' ->
      delivers st ((url, options) :: requests) ((k, reply) :: outcomes) st'.

End Delivery.

(** The log of batches each sent after [k] retried attempts: the
    retried calls with their backoff waits from 400 ms, the call that
    succeeds, and the polite delay. *)
Definition retried_batches_trace (politeDelay : Z)
    (sent : list ((string * Options) * (nat * value))) : list Event :=
  flat_map (fun '(rq, (k, _)) =>
              backoff_trace rq.1 rq.2 400 0 k ++ [Fetch rq.1 rq.2; Sleep politeDelay])
           sent.

(** ** The [Pool] class *)

Module Pool.

Section Tasks.

(** The functions handed to [run]. *)
Context {T : Type}.

(** Whether a call of the function throws before its first [await]:
    the [catch] and the [finally] of its task then run at once, inside
    the call of the task. *)
Variable throws_at_once : T -> bool.

(** The fields of a [Pool], with two records of what it did: the
    functions whose task is suspended at [await fn()], oldest first,
    and the functions called so far, in the order of the calls. *)
Record State : Type := mkState {
  limit : Z;
  active : Z;
  q : list T;
  running : list T;
  started : list T
}.

(** [new Pool(limit = 3)] *)
Definition create (lim : option Z) : State := mkState (default 3 lim) 0 [] [] [].

(** [while (this.active < this.limit && this.q.length) this.q.shift()()]
    on the queue [queue].  A task that is shifted increments [active]
    and calls its function.  When the call throws at once the task
    decrements [active] and enters [_next] itself; when that inner loop
    returns, the test of the outer one is the test it stopped on, so
    both are this one loop going on with [active] as it was. *)
Fixpoint next_from (queue : list T) (lim act : Z) (run_ started_ : list T) : State :=
  match queue with
  | [] => mkState lim act [] run_ started_
  | fn :: rest =>
      if act <? lim then
        if throws_at_once fn
        then next_from rest lim act run_ (started_ ++ [fn])
        else next_from rest lim (act + 1) (run_ ++ [fn]) (started_ ++ [fn])
      else mkState lim act queue run_ started_
  end.

(** [this._next()] *)
Definition _next (s : State) : State :=
  next_from (q s) (limit s) (active s) (running s) (started s).

(** [run(fn)]: [this.q.push(task); this._next()]. *)
Definition run (fn : T) (s : State) : State :=
  _next (mkState (limit s) (active s) (q s ++ [fn]) (running s) (started s)).

(** The promise of the [i]-th suspended task settles: its task resumes,
    resolves or rejects the promise of [run], and in its [finally]
    decrements [active] and calls [_next].  Nothing happens when no
    task has this rank. *)
Definition settle_at (i : nat) (s : State) : State :=
  match running s !! i with
  | Some _ =>
      _next (mkState (limit s) (active s - 1) (q s) (delete i (running s)) (started s))
  | None => s
  end.

(** The invariant of a pool created with the limit [lim]: the counter
    counts the suspended tasks, stays within the limit, and is at the
    limit whenever a function waits. *)
Definition pool_inv (lim : Z) (s : State) : Prop :=
  limit s = lim
  /\ active s = Z.of_nat (length (running s))
  /\ active s <= Z.max 0 lim
  /\ (q s <> [] -> lim <= active s).

(** What happens to a pool: a call of [run], or the settlement of a
    suspended task. *)
Inductive op : Type :=
  | Run (fn : T)
  | Settle (i : nat).

Definition step (s : State) (o : op) : State :=
  match o with
  | Run fn => run fn s
  | Settle i => settle_at i s
  end.

Definition exec (ops : list op) (s : State) : State := foldl step s ops.

(** The functions handed to [run] by [ops], in order. *)
Definition submitted (ops : list op) : list T :=
  omap (fun o => match o with Run fn => Some fn | Settle _ => None end) ops.

End Tasks.

End Pool.

(** ** [validateBiz] and src/mapping.mjs *)

Module Validate.

(** [typeof v] *)
Definition typeof (v : value) : string :=
  match v with
  | VUndefined => "undefined"
  | VNull | VArr _ | VObj _ => "object"
  | VBool _ => "boolean"
  | VNum _ => "number"
  | VStr _ => "string"
  end.

(** [validateBiz(biz)]: the error it throws, [None] when it returns. *)
Definition validateBiz (biz : value) : option exn :=
  if negb (truthy biz) || negb (String.eqb (typeof biz) "object") then
    Some (Error "Invalid record")
  else if negb (truthy (get_opt biz "placeId")) then
    Some (Error "Missing placeId")
  else if negb (truthy (get_opt biz "title")) then
    Some (Error ("Missing title for placeId=" +:+ to_String (get_opt biz "placeId")))
  else None.

End Validate.

Module Mapping.

(** [v ?? d] *)
Definition nullish_or (v d : value) : value :=
  match v with
  | VUndefined | VNull => d
  | _ => v
  end.

(** [Number.isFinite(v)]: the numbers of the model, the integers, are
    finite; a score that is finite and not an integer is outside the
    model and is carried through in the same way. *)
Definition isFinite (v : value) : bool :=
  match v with VNum _ => true | _ => false end.

(** [Array.isArray(v)] *)
Definition isArray (v : value) : bool :=
  match v with VArr _ => true | _ => false end.

(** The key field of the leads table, [cfg.airtable.tables.leads.keyField]. *)
Definition leads_keyField : string := "placeId".

(** [`${d.day}: ${d.hours}`]; [None] stands for the [TypeError] on a
    [d] that is [undefined] or [null]. *)
Definition day_line (d : value) : option string :=
  day ← get d "day";
  hours ← get d "hours";
  Some (to_String day +:+ ": " +:+ to_String hours).

(** [hoursToLine(arr)] *)
Definition hoursToLine (arr : value) : option value :=
  match arr with
  | VArr (d :: ds) =>
      lines ← mapM day_line (d :: ds);
      Some (VStr (String.concat " | " lines))
  | _ => Some VNull
  end.


Section Serialiser.

(** [JSON.stringify], the engine's serialiser. *)
Variable JSON_stringify : value -> string.

(** [stringify(v)] *)
Definition stringify (v : value) : value :=
  match v with
  | VUndefined | VNull => VNull
  | VStr s => VStr s
  | _ => VStr (JSON_stringify v)
  end.

(** [mapLeadFields(biz)]; [None] stands for a [TypeError], of reading a
    property of a [biz] that is [undefined] or [null] or of an opening
    day that is. *)
Definition mapLeadFields (biz : value) : option value :=
  placeId ← get biz "placeId";
  openingHours ← hoursToLine (get_opt biz "openingHours");
  Some (VObj
    [("placeId", nullish_or placeId VNull);
     ("companyName", nullish_or (get_opt biz "title") VNull);
     ("categoryName", nullish_or (get_opt biz "categoryName") VNull);
     ("neighborhood", nullish_or (get_opt biz "neighborhood") VNull);
     ("address", nullish_or (get_opt biz "address") VNull);
     ("street", nullish_or (get_opt biz "street") VNull);
     ("city", nullish_or (get_opt biz "city") VNull);
     ("state", nullish_or (get_opt biz "state") VNull);
     ("website", nullish_or (get_opt biz "website") VNull);
     ("listedPhone", nullish_or (get_opt biz "phone") VNull);
     ("googleMapsUrl", nullish_or (get_opt biz "url") VNull);
     ("googleRank", nullish_or (get_opt biz "rank") VNull);
     ("totalScore",
      if isFinite (get_opt biz "totalScore") then get_opt biz "totalScore" else VNull);
     ("categories",
      if isArray (get_opt biz "categories") then get_opt biz "categories" else VNull);
     ("reviewsDistribution", stringify (get_opt biz "reviewsDistribution"));
     ("reviewsCount",
      if isFinite (get_opt biz "reviewsCount") then get_opt biz "reviewsCount"
      else if isArray (get_opt biz "reviews")
      then VNum (Z.of_nat (length (indexed (get_opt biz "reviews"))))
      else VNull);
     ("openingHours", openingHours);
     ("ownerUpdatesJson", stringify (get_opt biz "ownerUpdates"));
     ("scrapedAt", nullish_or (get_opt biz "scrapedAt") VNull)]).

End Serialiser.

End Mapping.

(** ** Model servers

    The two ways the tests of the repository script the network: a
    server that gives the same answer to every call
    ([mockResolvedValue]) and one that plays a list of answers and then
    a last one for ever ([mockResolvedValueOnce] chained).  The state
    of either is the number of calls it has received. *)

Module Mock.

Definition always (o : Outcome Response)
    : string -> Options -> nat -> Outcome Response * nat :=
  fun _ _ n => (o, S n).

Definition scripted (script : list (Outcome Response)) (o : Outcome Response)
    : string -> Options -> nat -> Outcome Response * nat :=
  fun _ _ n => (nth n script o, S n).

(** An answer with the given status and body text; [ok] as the Fetch
    standard sets it, for a status from 200 to 299. *)
Definition answer (code : Z) (txt : string) (js : Outcome value) : Outcome Response :=
  Resolved (mkResponse code ((200 <=? code) && (code <=? 299)) (Resolved txt) js).

(** A 200 answer carrying a JSON value. *)
Definition ok_json (v : value) : Outcome Response := answer 200 EmptyString (Resolved v).

(** A backslash before every double quote and every backslash. *)
Fixpoint escape_json (s : string) : string :=
  match s with
  | EmptyString => EmptyString
  | String c rest =>
      if Ascii.eqb c (Ascii.ascii_of_nat 34) || Ascii.eqb c (Ascii.ascii_of_nat 92)
      then backslash +:+ String c (escape_json rest)
      else String c (escape_json rest)
  end.

(** A serialiser to stand for [JSON.stringify] in the scenarios, for
    text without control characters: [undefined] is dropped from
    objects and written [null] in arrays. *)
Fixpoint stringify (v : value) : string :=
  match v with
  | VUndefined | VNull => "null"
  | VBool true => "true"
  | VBool false => "false"
  | VNum n => pretty n
  | VStr s => dquote +:+ escape_json s +:+ dquote
  | VArr items => "[" +:+ String.concat "," (List.map stringify items) +:+ "]"
  | VObj props =>
      "{" +:+ String.concat ","
                (List.flat_map
                   (fun kv =>
                      let '(k, x) := kv in
                      match x with
                      | VUndefined => []
                      | _ => [dquote +:+ escape_json k +:+ dquote +:+ ":" +:+ stringify x]
                      end) props)
          +:+ "}"
  end.

End Mock.

(** *** The scenarios of test/http.test.mjs *)

Module Scenario.

Import Mock.

Definition url : string := "https://api.example.com/data".

Definition rate_limited : Response :=
  mkResponse 429 false (Resolved "Rate Limited") (Rejected (Error "no json")).

Definition server_error : Response :=
  mkResponse 500 false (Resolved "Internal Server Error") (Rejected (Error "no json")).

Definition not_found : Response :=
  mkResponse 404 false (Resolved "Not Found") (Rejected (Error "no json")).

Definition no_body : Response :=
  mkResponse 404 false (Rejected (Error "No body")) (Rejected (Error "no json")).

Definition success : value := VObj [("success", VBool true)].

Definition success_response : Response :=
  mkResponse 200 true (Resolved EmptyString) (Resolved success).

Definition start : World nat := mkWorld 0%nat [].

Definition quick (retries : Z) : option RetryConfig :=
  Some (mkRetryConfig (Some retries) (Some 10)).

(** The repository against a base [appBase] with the default strict
    duplicates mode. *)
Definition env0 : Env := mkEnv (Some "appBase") (Some "secret") None.

Definition lead (placeId : string) : value :=
  VObj [("fields", VObj [("placeId", VStr placeId)])].

Definition stored (id placeId : string) : value :=
  VObj [("id", VStr id); ("fields", VObj [("placeId", VStr placeId)])].

Definition listing (records : list value) : value :=
  VObj [("records", VArr records)].

(** Eleven records to create, and a store that reports one created
    record for every batch. *)
Definition eleven : list value := replicate 11 (lead "p").

Definition one_per_batch : string -> Options -> nat -> Outcome Response * nat :=
  always (ok_json (listing [stored "rec1" "p"])).

(** Twenty-one keys, all truthy, and the same with a [null] in place of
    the last; a store that knows the first key under two identifiers,
    one in the reply to each group. *)
Definition keys21 : list value := (fun n => VNum (Z.of_nat n)) <$> seq 1 21.

Definition keys20_null : list value :=
  ((fun n => VNum (Z.of_nat n)) <$> seq 1 20) ++ [VNull].

Definition numbered (id : string) (n : Z) : value :=
  VObj [("id", VStr id); ("fields", VObj [("placeId", VNum n)])].

Definition two_pages : string -> Options -> nat -> Outcome Response * nat :=
  scripted [ok_json (listing [numbered "recA" 1; numbered "recB" 2])]
           (ok_json (listing [numbered "recC" 1])).

Definition empty_store : string -> Options -> nat -> Outcome Response * nat :=
  always (ok_json (listing [])).

(** Stores for [upsertByKey]: the key held by one record, which the
    store returns when it is patched; by no record; by two records; and
    by one record, with a store that answers the PATCH with an empty
    object. *)
Definition holds_one : string -> Options -> nat -> Outcome Response * nat :=
  scripted [ok_json (listing [stored "rec1" "p1"])] (ok_json (stored "rec1" "p1")).

Definition holds_none : string -> Options -> nat -> Outcome Response * nat :=
  scripted [ok_json (listing [])] (ok_json (listing [stored "rec2" "p1"])).

Definition holds_two : string -> Options -> nat -> Outcome Response * nat :=
  always (ok_json (listing [stored "rec1" "p1"; stored "rec7" "p1"])).

Definition holds_one_silent : string -> Options -> nat -> Outcome Response * nat :=
  scripted [ok_json (listing [stored "rec1" "p1"])] (ok_json (VObj [])).

End Scenario.

Import Scenario.

(** Further scenarios: answers, stores and pools. *)
Module Cases.

Import Mock.


Definition unparsable : Response :=
  mkResponse 200 true (Resolved "<html>") (Rejected (Error "Invalid JSON")).

(** A store that rate-limits the first call and serves the others. *)
Definition limited_once : string -> Options -> nat -> Outcome Response * nat :=
  scripted [Resolved rate_limited] (ok_json (listing [stored "rec1" "p"])).

(** A store that serves the first call and refuses the others. *)
Definition refuses_second : string -> Options -> nat -> Outcome Response * nat :=
  scripted [ok_json (listing [stored "rec1" "p"])] (Resolved not_found).

Definition falsy_keys : list value := [VNull; VStr EmptyString; VNum 0; VUndefined].

(** A lead as the scraper gives it. *)
Definition cafe : value :=
  VObj [("placeId", VStr "p1"); ("title", VStr "Cafe"); ("totalScore", VNum 4);
        ("openingHours",
         VArr [VObj [("day", VStr "Monday"); ("hours", VStr "9-17")];
               VObj [("day", VStr "Tuesday"); ("hours", VStr "Closed")]])].

(** Four functions, none of which throws at once, handed to a pool. *)
Definition patient (fn : nat) : bool := false.

Definition four_runs : list (Pool.op (T := nat)) :=
  [Pool.Run 1%nat; Pool.Run 2%nat; Pool.Run 3%nat; Pool.Run 4%nat].

End Cases.

Import Cases.

(** A scripted store serves a list of requests: each answer is read
    off by evaluation. *)
Ltac serve_all :=
  repeat (eapply serves_cons; [reflexivity..|]); apply serves_nil.

(** * Properties of [requestJSON] *)

Section HttpFacts.

Context {St : Type}.
Variable fetch : string -> Options -> St -> Outcome Response * St.

#[local] Abbreviation attempt := (attempt fetch).
#[local] Abbreviation attempts := (attempts fetch).
#[local] Abbreviation answers := (answers fetch).
#[local] Abbreviation state_after := (state_after fetch).

(** *** The loop body, case by case *)

Lemma attempt_unfold url options retries base i (w : World St) :
  attempt url options retries base i w =
  match fetch url options (server w) with
  | (Rejected e, st') => (Rejected e, mkWorld st' (log w ++ [Fetch url options]))
  | (Resolved res, st') =>
      if retryable res then
        if i =? retries then
          (Rejected (Error ("HTTP " +:+ pretty (status res) +:+ " after "
                            +:+ pretty retries +:+ " retries: "
                            +:+ text_or_empty res)),
           mkWorld st' (log w ++ [Fetch url options]))
        else
          (Resolved None,
           mkWorld st' (log w ++ [Fetch url options; Sleep (base * 2 ^ i)]))
      else if negb (ok res) then
        (Rejected (Error ("HTTP " +:+ pretty (status res) +:+ ": "
                          +:+ text_or_empty res)),
         mkWorld st' (log w ++ [Fetch url options]))
      else
        match json res with
        | Resolved v => (Resolved (Some v), mkWorld st' (log w ++ [Fetch url options]))
        | Rejected e => (Rejected e, mkWorld st' (log w ++ [Fetch url options]))
        end
  end.
Proof.
  unfold attempt, bind, call_fetch, sleep, throw, ret, settle.
  destruct (fetch url options (server w)) as [[res|e] st']; simpl; [|done].
  destruct (retryable res); [destruct (i =? retries)|]; simpl.
  - done.
  - by rewrite <- app_assoc.
  - destruct (ok res); simpl; [|done]. by destruct (json res).
Qed.

Lemma attempts_cons url options retries base i rest (w : World St) :
  attempts url options retries base (i :: rest) w =
  match attempt url options retries base i w with
  | (Resolved (Some v), w') => (Resolved (Some v), w')
  | (Resolved None, w') => attempts url options retries base rest w'
  | (Rejected e, w') => (Rejected e, w')
  end.
Proof.
  simpl. unfold bind.
  destruct (attempt url options retries base i w) as [[[v|]|e] w']; done.
Qed.

Lemma answers_S url options n st :
  answers url options (S n) st =
  (fetch url options st).1 :: answers url options n (fetch url options st).2.
Proof. simpl. by destruct (fetch url options st). Qed.

Lemma answers_snoc url options n st :
  answers url options (S n) st =
  answers url options n st
  ++ [(fetch url options (state_after url options n st)).1].
Proof.
  revert st. induction n as [|n IH]; intros st.
  - simpl. by destruct (fetch url options st).
  - rewrite answers_S, IH, answers_S. done.
Qed.

Lemma state_after_S url options n st :
  state_after url options (S n) st =
  (fetch url options (state_after url options n st)).2.
Proof.
  revert st. induction n as [|n IH]; intros st; [done|].
  change (state_after url options (S (S n)) st)
    with (state_after url options (S n) (fetch url options st).2).
  by rewrite IH.
Qed.

Lemma backoff_trace_S url options base a k :
  backoff_trace url options base a (S k) =
  [Fetch url options; Sleep (base * 2 ^ Z.of_nat a)]
  ++ backoff_trace url options base (S a) k.
Proof. done. Qed.

(** [k] retryable answers in a row, none of them at the last permitted
    index, are each followed by the backoff wait and the next attempt. *)
Lemma attempts_skip url options retries base k :
  forall (a m : nat) (st : St) (lg : list Event) (rs : list Response),
    answers url options k st = Resolved <$> rs ->
    Forall (fun res => retryable res = true) rs ->
    (forall j, (a <= j < a + k)%nat -> Z.of_nat j <> retries) ->
    attempts url options retries base (Z.of_nat <$> seq a (k + m)) (mkWorld st lg) =
    attempts url options retries base (Z.of_nat <$> seq (a + k) m)
      (mkWorld (state_after url options k st)
               (lg ++ backoff_trace url options base a k)).
Proof.
  induction k as [|k IH]; intros a m st lg rs Hans Hretry Hidx.
  - simpl. by rewrite Nat.add_0_r, app_nil_r.
  - rewrite answers_S in Hans.
    destruct rs as [|res rs]; [done|].
    injection Hans as Hres Hans.
    apply Forall_cons in Hretry as [Hres_retry Hretry].
    change (Z.of_nat <$> seq a (S k + m))
      with (Z.of_nat a :: (Z.of_nat <$> seq (S a) (k + m))).
    rewrite attempts_cons, attempt_unfold. simpl server. simpl log.
    destruct (fetch url options st) as [o st'] eqn:Hfetch.
    simpl in Hres, Hans. subst o. rewrite Hres_retry.
    destruct (Z.eqb_spec (Z.of_nat a) retries) as [Heq|_].
    { exfalso. apply (Hidx a); [lia|done]. }
    rewrite (IH (S a) m st' _ rs Hans Hretry).
    + rewrite backoff_trace_S, <- app_assoc.
      replace (S a + k)%nat with (a + S k)%nat by lia.
      simpl state_after. by rewrite Hfetch.
    + intros j Hj. apply Hidx. lia.
Qed.

Lemma attempt_indices_from url options retries base (k : nat) st lg rs :
  Z.of_nat k <= retries ->
  answers url options k st = Resolved <$> rs ->
  Forall (fun res => retryable res = true) rs ->
  exists rest,
    attempts url options retries base (attempt_indices retries) (mkWorld st lg) =
    attempts url options retries base (Z.of_nat k :: rest)
      (mkWorld (state_after url options k st)
               (lg ++ backoff_trace url options base 0 k)).
Proof.
  intros Hk Hans Hretry. unfold attempt_indices.
  destruct (Z.to_nat (retries + 1) - k)%nat as [|m] eqn:Hm; [lia|].
  replace (Z.to_nat (retries + 1)) with (k + S m)%nat by lia.
  exists (Z.of_nat <$> seq (S k) m).
  rewrite (attempts_skip url options retries base k 0 (S m) st lg rs Hans Hretry).
  - done.
  - intros j Hj. lia.
Qed.

(** What an attempt that ends in [continue] has seen and done. *)
Lemma attempt_continue_inv url options retries base i (w w' : World St) :
  attempt url options retries base i w = (Resolved None, w') ->
  exists res st',
    fetch url options (server w) = (Resolved res, st')
    /\ retryable res = true /\ i <> retries
    /\ w' = mkWorld st' (log w ++ [Fetch url options; Sleep (base * 2 ^ i)]).
Proof.
  rewrite attempt_unfold.
  destruct (fetch url options (server w)) as [[res|e] st']; [|done].
  destruct (retryable res) eqn:Hr.
  - destruct (Z.eqb_spec i retries) as [|Hne]; [done|].
    intros [= <-]. by exists res, st'.
  - destruct (ok res); simpl; [destruct (json res)|]; done.
Qed.

(** An attempt that ends the loop has issued its call and nothing else. *)
Lemma attempt_stop_world url options retries base i (w w' : World St) o :
  attempt url options retries base i w = (o, w') ->
  o <> Resolved None ->
  w' = mkWorld (fetch url options (server w)).2 (log w ++ [Fetch url options]).
Proof.
  rewrite attempt_unfold.
  destruct (fetch url options (server w)) as [[res|e] st']; simpl.
  - destruct (retryable res); [destruct (i =? retries)|destruct (ok res); simpl;
      [destruct (json res)|]]; intros [= <- <-]; done.
  - by intros [= <- <-].
Qed.

(** The shape of every run of the loop over [n] indices from [a]:
    [k] retried attempts, then either the indices are used up or one
    more attempt ends the loop. *)
Lemma attempts_shape url options retries base (n : nat) :
  forall (a : nat) (st : St) (lg : list Event),
  exists (k : nat) (rs : list Response),
    answers url options k st = Resolved <$> rs
    /\ Forall (fun res => retryable res = true) rs
    /\ (forall j, (a <= j < a + k)%nat -> Z.of_nat j <> retries)
    /\ ((k = n
         /\ attempts url options retries base (Z.of_nat <$> seq a n) (mkWorld st lg)
            = (Resolved None,
               mkWorld (state_after url options k st)
                       (lg ++ backoff_trace url options base a k)))
        \/ ((k < n)%nat
            /\ exists o,
                 o <> Resolved None
                 /\ attempt url options retries base (Z.of_nat (a + k))
                      (mkWorld (state_after url options k st)
                               (lg ++ backoff_trace url options base a k))
                    = (o, mkWorld (state_after url options (S k) st)
                                  (lg ++ backoff_trace url options base a k
                                      ++ [Fetch url options]))
                 /\ attempts url options retries base (Z.of_nat <$> seq a n)
                      (mkWorld st lg)
                    = (o, mkWorld (state_after url options (S k) st)
                                  (lg ++ backoff_trace url options base a k
                                      ++ [Fetch url options])))).
Proof.
  induction n as [|n IH]; intros a st lg.
  - exists 0%nat, []. split_and!; [done|done|intros; lia|].
    left. split; [done|]. simpl. unfold ret. by rewrite app_nil_r.
  - change (Z.of_nat <$> seq a (S n))
      with (Z.of_nat a :: (Z.of_nat <$> seq (S a) n)).
    rewrite attempts_cons.
    destruct (attempt url options retries base (Z.of_nat a) (mkWorld st lg))
      as [o w1] eqn:Hatt.
    assert (o = Resolved None \/ o <> Resolved None) as [->|Hstop]
      by (destruct o as [[v|]|e]; [right|left|right]; done).
    + apply attempt_continue_inv in Hatt as (res & st' & Hfetch & Hr & Hne & ->).
      cbn [log server] in *.
      destruct (IH (S a) st' (lg ++ [Fetch url options; Sleep (base * 2 ^ Z.of_nat a)]))
        as (k & rs & Hans & Hretry & Hidx & Hrun).
      exists (S k), (res :: rs).
      assert (Hst : forall m, state_after url options (S m) st
                              = state_after url options m st').
      { intros m. simpl. by rewrite Hfetch. }
      assert (Hlog : forall tl,
                 (lg ++ [Fetch url options; Sleep (base * 2 ^ Z.of_nat a)])
                 ++ backoff_trace url options base (S a) k ++ tl
                 = lg ++ backoff_trace url options base a (S k) ++ tl).
      { intros tl. rewrite backoff_trace_S, <- !app_assoc. done. }
      split_and!.
      * rewrite answers_S, Hfetch. simpl. by rewrite Hans.
      * by constructor.
      * intros j Hj. destruct (decide (j = a)) as [->|]; [done|].
        apply Hidx. lia.
      * destruct Hrun as [[-> Hrun]|[Hlt (o & Ho & Hlast & Hrun)]].
        -- left. split; [done|]. rewrite Hrun, Hst.
           specialize (Hlog []). rewrite !app_nil_r in Hlog. by rewrite Hlog.
        -- right. split; [lia|]. exists o. split; [done|].
           rewrite !Hst.
           replace (a + S k)%nat with (S a + k)%nat by lia.
           specialize (Hlog []) as Hlog0. rewrite !app_nil_r in Hlog0.
           rewrite <- Hlog0, <- (Hlog [Fetch url options]).
           rewrite <- !app_assoc in *. split; [exact Hlast|exact Hrun].
    + pose proof (attempt_stop_world _ _ _ _ _ _ _ _ Hatt Hstop) as ->.
      simpl in *.
      exists 0%nat, []. split_and!; [done|done|intros; lia|].
      right. split; [lia|]. exists o. split; [done|].
      rewrite Nat.add_0_r. simpl. rewrite app_nil_r.
      split; [exact Hatt|].
      destruct o as [[v|]|e]; done.
Qed.


(** *** Counting in logs *)

Lemma calls_app (l1 l2 : list Event) : calls (l1 ++ l2) = (calls l1 + calls l2)%nat.
Proof. unfold calls. by rewrite filter_app, length_app. Qed.

Lemma sleeps_app (l1 l2 : list Event) : sleeps (l1 ++ l2) = sleeps l1 ++ sleeps l2.
Proof. unfold sleeps. apply omap_app. Qed.

Lemma calls_backoff_trace url options base a k :
  calls (backoff_trace url options base a k) = k.
Proof.
  revert a. induction k as [|k IH]; intros a; [done|].
  rewrite backoff_trace_S, calls_app, IH. done.
Qed.

Lemma sleeps_backoff_trace url options base a k :
  sleeps (backoff_trace url options base a k)
  = (fun j => base * 2 ^ Z.of_nat j) <$> seq a k.
Proof.
  revert a. induction k as [|k IH]; intros a; [done|].
  rewrite backoff_trace_S, sleeps_app, IH. done.
Qed.

(** The run of [requestJSON] from the run of its loop. *)
Lemma requestJSON_unfold url options rc (w : World St) :
  requestJSON fetch url options rc w =
  match attempts url (default no_options options) (retries_of rc)
          (baseDelayMs_of rc) (attempt_indices (retries_of rc)) w with
  | (Resolved r, w') => (Resolved (default VUndefined r), w')
  | (Rejected e, w') => (Rejected e, w')
  end.
Proof. done. Qed.

Lemma answers_last url options k st rs o :
  answers url options (S k) st = (Resolved <$> rs) ++ [o] ->
  answers url options k st = Resolved <$> rs
  /\ (fetch url options (state_after url options k st)).1 = o.
Proof. rewrite answers_snoc. apply app_inj_tail. Qed.

(** After [k] retried attempts within the budget, an answer that is
    not retried settles the call, and nothing follows its network
    call. *)
Lemma requestJSON_stops url options rc (k : nat) st lg rs o :
  Z.of_nat k <= retries_of rc ->
  answers url (default no_options options) (S k) st = (Resolved <$> rs) ++ [o] ->
  Forall (fun res => retryable res = true) rs ->
  (forall res, o = Resolved res -> retryable res = true -> Z.of_nat k = retries_of rc) ->
  requestJSON fetch url options rc (mkWorld st lg)
  = (settlement (retries_of rc) o,
     mkWorld (state_after url (default no_options options) (S k) st)
       (lg ++ backoff_trace url (default no_options options) (baseDelayMs_of rc) 0 k
           ++ [Fetch url (default no_options options)])).
Proof.
  intros Hk Hans Hretry Hlast.
  set (opts := default no_options options) in *.
  apply answers_last in Hans as [Hans Ho].
  destruct (attempt_indices_from url opts (retries_of rc) (baseDelayMs_of rc)
              k st lg rs Hk Hans Hretry) as [rest Hrun].
  rewrite requestJSON_unfold. fold opts. rewrite Hrun, attempts_cons, attempt_unfold.
  rewrite state_after_S. cbn [server log]. rewrite <- app_assoc.
  destruct (fetch url opts (state_after url opts k st)) as [o' st'].
  simpl in Ho. subst o'. cbn [snd].
  destruct o as [res|e]; [|done]. unfold settlement.
  destruct (retryable res) eqn:Hr.
  - rewrite (Hlast res eq_refl Hr), Z.eqb_refl. done.
  - destruct (ok res); simpl; [|done]. by destruct (json res).
Qed.


(** C2. An answer to the first call that is not [ok] and whose status
    is neither 429 nor 500 or above makes [requestJSON] reject at once:
    exactly one network call, no wait, and the error message
    [HTTP <status>: <text>], where the text is the body text, or the
    empty string when reading the body fails; the failure to read never
    takes the place of the status error. *)
Theorem requestJSON_client_error url options rc st lg res st' :
  0 <= retries_of rc ->
  fetch url (default no_options options) st = (Resolved res, st') ->
  ok res = false ->
  status res <> 429 ->
  status res < 500 ->
  let run := requestJSON fetch url options rc (mkWorld st lg) in
  run = (Rejected (Error ("HTTP " +:+ pretty (status res) +:+ ": "
                          +:+ text_or_empty res)),
         mkWorld st' (lg ++ [Fetch url (default no_options options)]))
  /\ calls (log run.2) = (calls lg + 1)%nat
  /\ sleeps (log run.2) = sleeps lg
  /\ (forall t, text res = Resolved t -> text_or_empty res = t)
  /\ (forall e, text res = Rejected e -> text_or_empty res = EmptyString).
Proof.
  intros Hretries Hfetch Hok H429 H500 run.
  assert (Hr : retryable res = false).
  { unfold retryable. apply orb_false_iff. split; [by apply Z.eqb_neq|by apply Z.leb_gt]. }
  assert (Hrun : run = (Rejected (Error ("HTTP " +:+ pretty (status res) +:+ ": "
                          +:+ text_or_empty res)),
         mkWorld st' (lg ++ [Fetch url (default no_options options)]))).
  { unfold run.
    rewrite (requestJSON_stops url options rc 0 st lg [] (Resolved res)).
    - unfold settlement. rewrite Hr, Hok. simpl. by rewrite Hfetch.
    - done.
    - simpl. by rewrite Hfetch.
    - done.
    - intros res' [= <-] Hr'. congruence. }
  rewrite Hrun. cbn [snd log]. split_and!; [done|..].
  - by rewrite calls_app.
  - rewrite sleeps_app. apply app_nil_r.
  - unfold text_or_empty. by intros t ->.
  - unfold text_or_empty. by intros e ->.
Qed.

(** C3. When the network call itself fails, at the first attempt or
    after [k] retried ones, [requestJSON] rejects with that very error
    and stops: the failed call is its last, whatever the retry count
    allows beyond it. *)
Theorem requestJSON_transport_failure url options rc (k : nat) st lg rs e :
  Z.of_nat k <= retries_of rc ->
  answers url (default no_options options) (S k) st
    = (Resolved <$> rs) ++ [Rejected e] ->
  Forall (fun res => retryable res = true) rs ->
  let run := requestJSON fetch url options rc (mkWorld st lg) in
  run.1 = Rejected e
  /\ log run.2
     = lg ++ backoff_trace url (default no_options options) (baseDelayMs_of rc) 0 k
          ++ [Fetch url (default no_options options)]
  /\ calls (log run.2) = (calls lg + (k + 1))%nat.
Proof.
  intros Hk Hans Hretry run. unfold run.
  rewrite (requestJSON_stops url options rc k st lg rs (Rejected e) Hk Hans Hretry)
    by done.
  cbn [fst snd log settlement]. split_and!; [done|done|].
  rewrite !calls_app, calls_backoff_trace. done.
Qed.

(** C4. When [k] retryable answers, [k] within the retry budget, are
    followed by a success whose body parses to [v], [requestJSON]
    resolves with [v] after exactly [k + 1] network calls: each retried
    call is followed by its backoff wait, and the successful call is
    the last event of the run. *)
Theorem requestJSON_recovers url options rc (k : nat) st lg rs res v :
  Z.of_nat k <= retries_of rc ->
  answers url (default no_options options) (S k) st
    = (Resolved <$> rs) ++ [Resolved res] ->
  Forall (fun r => retryable r = true) rs ->
  retryable res = false ->
  ok res = true ->
  json res = Resolved v ->
  let run := requestJSON fetch url options rc (mkWorld st lg) in
  run.1 = Resolved v
  /\ log run.2
     = lg ++ backoff_trace url (default no_options options) (baseDelayMs_of rc) 0 k
          ++ [Fetch url (default no_options options)]
  /\ calls (log run.2) = (calls lg + (k + 1))%nat.
Proof.
  intros Hk Hans Hretry Hr Hok Hjson run. unfold run.
  rewrite (requestJSON_stops url options rc k st lg rs (Resolved res) Hk Hans Hretry).
  - cbn [fst snd log settlement]. rewrite Hr, Hok. simpl. split_and!; [done|done|].
    rewrite !calls_app, calls_backoff_trace. done.
  - intros res' [= <-] Hr'. congruence.
Qed.

(** What an attempt that returns has seen. *)
Lemma attempt_return_inv url options retries base i (w w' : World St) v :
  attempt url options retries base i w = (Resolved (Some v), w') ->
  exists res,
    (fetch url options (server w)).1 = Resolved res
    /\ retryable res = false /\ ok res = true /\ json res = Resolved v.
Proof.
  rewrite attempt_unfold.
  destruct (fetch url options (server w)) as [[res|e] st']; [|done].
  destruct (retryable res) eqn:Hr; [by destruct (i =? retries)|].
  destruct (ok res) eqn:Hok; simpl; [|done].
  destruct (json res) as [v'|e] eqn:Hjson; [|done].
  intros [= <- <-]. by exists res.
Qed.

(** The shape of every run of [requestJSON]. *)
Lemma requestJSON_shape url options rc (w : World St) :
  let opts := default no_options options in
  let run := requestJSON fetch url options rc w in
  exists (k : nat) (rs : list Response),
    answers url opts k (server w) = Resolved <$> rs
    /\ Forall (fun res => retryable res = true) rs
    /\ (forall j, (j < k)%nat -> Z.of_nat j <> retries_of rc)
    /\ ((k = Z.to_nat (retries_of rc + 1)
         /\ run = (Resolved VUndefined,
                   mkWorld (state_after url opts k (server w))
                     (log w ++ backoff_trace url opts (baseDelayMs_of rc) 0 k)))
        \/ ((k < Z.to_nat (retries_of rc + 1))%nat
            /\ log run.2
               = log w ++ backoff_trace url opts (baseDelayMs_of rc) 0 k
                       ++ [Fetch url opts]
            /\ server run.2 = state_after url opts (S k) (server w)
            /\ ((exists e, run.1 = Rejected e)
                \/ exists res v,
                     (fetch url opts (state_after url opts k (server w))).1
                       = Resolved res
                     /\ retryable res = false /\ ok res = true
                     /\ json res = Resolved v /\ run.1 = Resolved v))).
Proof.
  intros opts run. destruct w as [st lg]. cbn [server log].
  destruct (attempts_shape url opts (retries_of rc) (baseDelayMs_of rc)
              (Z.to_nat (retries_of rc + 1)) 0 st lg)
    as (k & rs & Hans & Hretry & Hidx & Hrun).
  exists k, rs. split_and!; [done|done|intros j Hj; apply Hidx; lia|].
  unfold run. rewrite requestJSON_unfold. fold opts. unfold attempt_indices.
  destruct Hrun as [[-> Hrun]|[Hlt (o & Ho & Hatt & Hrun)]].
  - left. split; [done|]. by rewrite Hrun.
  - right. split; [done|]. rewrite Hrun.
    destruct o as [[v|]|e]; [|done|].
    + cbn [fst snd log server]. split_and!; [done|done|]. right.
      apply attempt_return_inv in Hatt as (res & Hfetch & Hr & Hok & Hjson).
      by exists res, v.
    + cbn [fst snd log server]. split_and!; [done|done|]. left. by exists e.
Qed.

(** An attempt appends its network call to the log, and at most the
    wait that follows it. *)
Lemma attempt_log url options retries base i (w : World St) :
  exists tl,
    log (attempt url options retries base i w).2 = log w ++ Fetch url options :: tl.
Proof.
  rewrite attempt_unfold.
  destruct (fetch url options (server w)) as [[res|e] st']; [|by exists []].
  destruct (retryable res); [destruct (i =? retries)|].
  - by exists [].
  - by exists [Sleep (base * 2 ^ i)].
  - destruct (ok res); simpl; [destruct (json res)|]; by exists [].
Qed.

(** The loop only adds to the log. *)
Lemma attempts_log url options retries base indices :
  forall w : World St,
    exists ext, log (attempts url options retries base indices w).2 = log w ++ ext.
Proof.
  induction indices as [|i rest IH]; intros w.
  - exists []. simpl. by rewrite app_nil_r.
  - rewrite attempts_cons.
    destruct (attempt_log url options retries base i w) as [tl Htl].
    destruct (attempt url options retries base i w) as [[[v|]|e] w1]; simpl in Htl.
    + by exists (Fetch url options :: tl).
    + destruct (IH w1) as [ext Hext]. exists ((Fetch url options :: tl) ++ ext).
      by rewrite Hext, Htl, <- app_assoc.
    + by exists (Fetch url options :: tl).
Qed.

(** Every retryable answer below the retry count is followed by its
    backoff wait and by the next attempt: after [k] retryable answers,
    [k] within the budget, the log of the call goes on with the [k]
    calls, each followed by its wait, and with the call of attempt
    [k]. *)
Lemma requestJSON_waits_after_retryable url options rc (w : World St) (k : nat) rs :
  Z.of_nat k <= retries_of rc ->
  answers url (default no_options options) k (server w) = Resolved <$> rs ->
  Forall (fun res => retryable res = true) rs ->
  exists rest,
    log (requestJSON fetch url options rc w).2
    = log w
      ++ backoff_trace url (default no_options options) (baseDelayMs_of rc) 0 k
      ++ Fetch url (default no_options options) :: rest.
Proof.
  intros Hk Hans Hretry. destruct w as [st lg]. cbn [server log] in *.
  set (opts := default no_options options) in *.
  destruct (attempt_indices_from url opts (retries_of rc) (baseDelayMs_of rc)
              k st lg rs Hk Hans Hretry) as [rest Hrun].
  rewrite requestJSON_unfold. fold opts. rewrite Hrun, attempts_cons.
  set (wk := mkWorld (state_after url opts k st)
               (lg ++ backoff_trace url opts (baseDelayMs_of rc) 0 k)).
  destruct (attempt_log url opts (retries_of rc) (baseDelayMs_of rc) (Z.of_nat k) wk)
    as [tl Htl].
  destruct (attempt url opts (retries_of rc) (baseDelayMs_of rc) (Z.of_nat k) wk)
    as [[[v|]|e] w1]; cbn [snd log] in Htl; unfold wk in Htl; cbn [log] in Htl.
  - exists tl. cbn [snd]. by rewrite Htl, <- app_assoc.
  - destruct (attempts_log url opts (retries_of rc) (baseDelayMs_of rc) rest w1)
      as [ext Hext].
    destruct (attempts url opts (retries_of rc) (baseDelayMs_of rc) rest w1)
      as [[r|e] w2]; cbn [snd] in *;
      exists (tl ++ ext); by rewrite Hext, Htl, <- !app_assoc.
  - exists tl. cbn [snd]. by rewrite Htl, <- app_assoc.
Qed.

(** C5. Every retryable answer at an attempt index [i] below the retry
    count is followed by the wait [baseDelayMs * 2^i] and then by the
    call of attempt [i + 1]; the log of a run is these calls and waits
    for the [k] answers that were retried, [k] at most the retry count,
    and one last call, so the waits are [baseDelayMs],
    [2 * baseDelayMs], [4 * baseDelayMs], ... in order.  A call without
    a retry configuration is the call with 5 retries and 400 ms, and a
    call that gives one of the two is the call with the other at its
    default. *)
Theorem requestJSON_backoff_delays url options rc (w : World St) :
  let opts := default no_options options in
  let run := requestJSON fetch url options rc w in
  (forall (k : nat) (rs : list Response),
     Z.of_nat k <= retries_of rc ->
     answers url opts k (server w) = Resolved <$> rs ->
     Forall (fun res => retryable res = true) rs ->
     exists rest,
       log run.2
       = log w
         ++ flat_map (fun i => [Fetch url opts;
                                Sleep (baseDelayMs_of rc * 2 ^ Z.of_nat i)])
                     (seq 0 k)
         ++ Fetch url opts :: rest)
  /\ (exists (k : nat) (rs : list Response),
       answers url opts k (server w) = Resolved <$> rs
       /\ Forall (fun res => retryable res = true) rs
       /\ sleeps (log run.2)
          = sleeps (log w)
            ++ ((fun i => baseDelayMs_of rc * 2 ^ Z.of_nat i) <$> seq 0 k)
       /\ exists last,
            ((last = [] /\ k = 0%nat /\ retries_of rc < 0)
             \/ (last = [Fetch url opts] /\ Z.of_nat k <= retries_of rc))
            /\ log run.2
               = log w
                 ++ flat_map (fun i => [Fetch url opts;
                                        Sleep (baseDelayMs_of rc * 2 ^ Z.of_nat i)])
                             (seq 0 k)
                 ++ last)
  /\ requestJSON fetch url options None
     = requestJSON fetch url options (Some (mkRetryConfig (Some 5) (Some 400)))
  /\ (forall r, requestJSON fetch url options (Some (mkRetryConfig (Some r) None))
                = requestJSON fetch url options (Some (mkRetryConfig (Some r) (Some 400))))
  /\ (forall b, requestJSON fetch url options (Some (mkRetryConfig None (Some b)))
                = requestJSON fetch url options (Some (mkRetryConfig (Some 5) (Some b))))
  /\ retries_of None = 5 /\ baseDelayMs_of None = 400
  /\ (forall b, retries_of (Some (mkRetryConfig None b)) = 5)
  /\ (forall r, baseDelayMs_of (Some (mkRetryConfig r None)) = 400)
  /\ (forall r b, retries_of (Some (mkRetryConfig (Some r) b)) = r)
  /\ (forall r b, baseDelayMs_of (Some (mkRetryConfig r (Some b))) = b).
Proof.
  intros opts run. split; [|split; [|done]].
  - intros k rs Hk Hans Hretry.
    apply (requestJSON_waits_after_retryable url options rc w k rs Hk Hans Hretry).
  - destruct (requestJSON_shape url options rc w)
      as (k & rs & Hans & Hretry & Hidx & Hrun).
    fold opts run in Hans, Hrun. exists k, rs. split_and!; [done|done|..].
    + destruct Hrun as [[_ ->]|(_ & -> & _)]; cbn [snd log];
        rewrite ?sleeps_app, sleeps_backoff_trace; [done|].
      change (sleeps [Fetch url opts]) with (@nil Z). by rewrite app_nil_r.
    + destruct Hrun as [[Hk ->]|(Hlt & -> & _)]; cbn [snd log].
      * exists []. split; [|by rewrite app_nil_r]. left.
        assert (Hneg : retries_of rc < 0).
        { destruct (Z.lt_ge_cases (retries_of rc) 0) as [|Hge]; [done|].
          exfalso. apply (Hidx (Z.to_nat (retries_of rc))); lia. }
        split_and!; [done|lia|done].
      * exists [Fetch url opts]. split; [|done]. right. split; [done|lia].
Qed.

(** C6. With a non-negative retry count the loop of [requestJSON]
    never ends without a [return] or a [throw]: the call either rejects
    with an error, or resolves with the parsed body of an answer that
    is [ok] and not retryable, the last one it fetched. *)
Theorem requestJSON_settles url options rc (w : World St) :
  0 <= retries_of rc ->
  let opts := default no_options options in
  let run := requestJSON fetch url options rc w in
  (attempts url opts (retries_of rc) (baseDelayMs_of rc)
     (attempt_indices (retries_of rc)) w).1 <> Resolved None
  /\ ((exists e, run.1 = Rejected e)
      \/ exists (k : nat) res v,
           (fetch url opts (state_after url opts k (server w))).1 = Resolved res
           /\ server run.2 = state_after url opts (S k) (server w)
           /\ retryable res = false /\ ok res = true
           /\ json res = Resolved v /\ run.1 = Resolved v).
Proof.
  intros Hretries opts run. destruct w as [st lg]. cbn [server log].
  destruct (attempts_shape url opts (retries_of rc) (baseDelayMs_of rc)
              (Z.to_nat (retries_of rc + 1)) 0 st lg)
    as (k & rs & Hans & Hretry & Hidx & Hrun).
  destruct Hrun as [[-> _]|(Hlt & o & Ho & Hatt & Hrun)].
  { exfalso. apply (Hidx (Z.to_nat (retries_of rc))); lia. }
  unfold run. rewrite requestJSON_unfold. fold opts.
  unfold attempt_indices. rewrite Hrun. cbn [fst snd server].
  split; [exact Ho|].
  destruct o as [[v|]|e]; [|done|left; by exists e].
  right. apply attempt_return_inv in Hatt as (res & Hfetch & Hr & Hok & Hjson).
  by exists k, res, v.
Qed.

End HttpFacts.



(** "should throw error on 4xx client errors (non-429)" *)
Lemma requestJSON_client_error_witness :
  let run := requestJSON (Mock.always (Resolved not_found)) url None None start in
  run = (Rejected (Error "HTTP 404: Not Found"), mkWorld 1%nat [Fetch url no_options])
  /\ calls (log run.2) = 1%nat
  /\ sleeps (log run.2) = []
  /\ (forall t, text not_found = Resolved t -> text_or_empty not_found = t)
  /\ (forall e, text not_found = Rejected e -> text_or_empty not_found = EmptyString).
Proof.
  apply (requestJSON_client_error (Mock.always (Resolved not_found)) url None None
           0%nat [] not_found 1%nat).
  - vm_compute. discriminate.
  - reflexivity.
  - reflexivity.
  - vm_compute. discriminate.
  - reflexivity.
Defined.

(** "should handle network errors", here after one retried attempt. *)
Lemma requestJSON_transport_failure_witness :
  let run := requestJSON
               (Mock.scripted [Resolved server_error] (Rejected (Error "Network error")))
               url None (quick 5) start in
  run.1 = Rejected (Error "Network error")
  /\ log run.2 = [Fetch url no_options; Sleep 10; Fetch url no_options]
  /\ calls (log run.2) = 2%nat.
Proof.
  apply (requestJSON_transport_failure
           (Mock.scripted [Resolved server_error] (Rejected (Error "Network error")))
           url None (quick 5) 1 0%nat [] [server_error] (Error "Network error")).
  - vm_compute. discriminate.
  - reflexivity.
  - repeat constructor.
Defined.

(** "should retry on 500 server errors and eventually succeed" *)
Lemma requestJSON_recovers_witness :
  let run := requestJSON
               (Mock.scripted [Resolved server_error] (Resolved success_response))
               url (Some no_options) (quick 5) start in
  run.1 = Resolved success
  /\ log run.2 = [Fetch url no_options; Sleep 10; Fetch url no_options]
  /\ calls (log run.2) = 2%nat.
Proof.
  apply (requestJSON_recovers
           (Mock.scripted [Resolved server_error] (Resolved success_response))
           url (Some no_options) (quick 5) 1 0%nat [] [server_error]
           success_response success).
  - vm_compute. discriminate.
  - reflexivity.
  - repeat constructor.
  - reflexivity.
  - reflexivity.
  - reflexivity.
Defined.

(** A server that never recovers, under the default configuration:
    the first two answers are followed by the waits of 400 and 800 ms
    and the third call; in all, five waits and six calls. *)
Lemma requestJSON_backoff_delays_witness :
  let run := requestJSON (Mock.always (Resolved server_error)) url None None start in
  (exists rest,
     log run.2
     = [Fetch url no_options; Sleep 400; Fetch url no_options; Sleep 800]
       ++ Fetch url no_options :: rest)
  /\ sleeps (log run.2) = [400; 800; 1600; 3200; 6400]
  /\ calls (log run.2) = 6%nat.
Proof.
  destruct (requestJSON_backoff_delays (Mock.always (Resolved server_error)) url None None
              start) as (Hwaits & _).
  split; [|by vm_compute].
  apply (Hwaits 2%nat [server_error; server_error]).
  - vm_compute. discriminate.
  - reflexivity.
  - repeat constructor.
Defined.

(** The default configuration against a server that never recovers. *)
Lemma requestJSON_settles_witness :
  let run := requestJSON (Mock.always (Resolved server_error)) url None None start in
  (attempts (Mock.always (Resolved server_error)) url no_options 5 400
     (attempt_indices 5) start).1 <> Resolved None
  /\ ((exists e, run.1 = Rejected e)
      \/ exists (k : nat) res v,
           (Mock.always (Resolved server_error) url no_options
              (state_after (Mock.always (Resolved server_error)) url no_options k 0%nat)).1
             = Resolved res
           /\ server run.2
              = state_after (Mock.always (Resolved server_error)) url no_options (S k) 0%nat
           /\ retryable res = false /\ ok res = true
           /\ json res = Resolved v /\ run.1 = Resolved v).
Proof.
  apply (requestJSON_settles (Mock.always (Resolved server_error)) url None None start).
  vm_compute. discriminate.
Defined.

(** "should handle empty response text gracefully" *)
Example requestJSON_unreadable_body :
  (requestJSON (Mock.always (Resolved no_body)) url None None start).1
  = Rejected (Error "HTTP 404: ").
Proof. reflexivity. Qed.

(** "should use default retry configuration" *)
Example requestJSON_default_retries :
  let run := requestJSON (Mock.always (Resolved server_error)) url (Some no_options)
               (Some (mkRetryConfig None (Some 1))) start in
  run.1 = Rejected (Error "HTTP 500 after 5 retries: Internal Server Error")
  /\ calls (log run.2) = 6%nat
  /\ sleeps (log run.2) = [1; 2; 4; 8; 16].
Proof. vm_compute. done. Qed.

(** A negative retry count: no attempt is made and the call resolves
    with [undefined]. *)
Example requestJSON_negative_retries :
  requestJSON (Mock.always (Resolved success_response)) url None
    (Some (mkRetryConfig (Some (-1)) None)) start
  = (Resolved VUndefined, start).
Proof. reflexivity. Qed.

(** * Properties of the repository *)

(** ** [chunk] *)

Section ChunkFacts.

Context {A : Type}.
Implicit Types (arr : list A) (size : nat).

Lemma ceil_div_0 size : ceil_div 0 size = 0%nat.
Proof.
  unfold ceil_div. destruct size as [|size]; [done|].
  rewrite Nat.Div0.div_0_l, Nat.Div0.mod_0_l. done.
Qed.

Lemma ceil_div_step n size :
  (0 < size)%nat -> (0 < n)%nat -> ceil_div n size = S (ceil_div (n - size) size).
Proof.
  intros Hsize Hn. unfold ceil_div.
  destruct (decide (n < size)%nat) as [Hlt|Hge].
  - rewrite Nat.div_small, Nat.mod_small by done.
    replace (n - size)%nat with 0%nat by lia.
    rewrite Nat.Div0.div_0_l, Nat.Div0.mod_0_l.
    destruct (Nat.eqb_spec n 0); [lia|done].
  - replace n with ((n - size) + 1 * size)%nat at 1 2 by lia.
    rewrite Nat.div_add by lia. rewrite Nat.Div0.mod_add.
    destruct ((n - size) mod size =? 0)%nat; lia.
Qed.

Lemma chunk_length arr size :
  length (chunk arr size) = ceil_div (length arr) size.
Proof. unfold chunk. by rewrite length_fmap, length_seq. Qed.

Lemma chunk_nil size : chunk (@nil A) size = [].
Proof. unfold chunk. simpl length. by rewrite ceil_div_0. Qed.

(** The first group is the first [size] items, and the other groups
    are those of the rest. *)
Lemma chunk_step arr size :
  (0 < size)%nat -> arr <> [] ->
  chunk arr size = take size arr :: chunk (drop size arr) size.
Proof.
  intros Hsize Harr. unfold chunk.
  rewrite (ceil_div_step (length arr) size Hsize)
    by (destruct arr; [done|simpl; lia]).
  rewrite length_drop. cbn [seq fmap list_fmap]. f_equal.
  - unfold slice. rewrite drop_0. f_equal. lia.
  - rewrite <- fmap_S_seq, <- list_fmap_compose.
    apply list_fmap_ext. intros _ i _. unfold compose, slice.
    rewrite drop_drop. f_equal. lia.
Qed.

(** The groups are not empty, hold at most [size] items, and put end
    to end give back the array. *)
Lemma chunk_groups size :
  (0 < size)%nat ->
  forall arr,
    Forall (fun group => (0 < length group <= size)%nat) (chunk arr size)
    /\ concat (chunk arr size) = arr.
Proof.
  intros Hsize arr.
  induction arr as [arr IH] using (induction_ltof1 _ (@length A)).
  unfold ltof in IH.
  destruct (decide (arr = [])) as [->|Hne].
  - rewrite chunk_nil. by split.
  - rewrite (chunk_step arr size Hsize Hne).
    destruct (IH (drop size arr)) as [Hall Hcat].
    { rewrite length_drop. destruct arr; [done|simpl; lia]. }
    split.
    + constructor; [|done]. rewrite length_take.
      destruct arr; [done|simpl; lia].
    + simpl. rewrite Hcat. apply take_drop.
Qed.

End ChunkFacts.

(** ** The key index of [findRecordsByKeys] *)

Lemma set_all_app entries1 entries2 (map : gmap string value) :
  set_all (entries1 ++ entries2) map = set_all entries2 (set_all entries1 map).
Proof. apply foldl_app. Qed.

Lemma set_all_snoc entries k v (map : gmap string value) :
  set_all (entries ++ [(k, v)]) map = <[k := v]> (set_all entries map).
Proof. by rewrite set_all_app. Qed.

(** Keys that are not set keep their binding. *)
Lemma set_all_lookup_other entries (map : gmap string value) k :
  k ∉ entries.*1 -> set_all entries map !! k = map !! k.
Proof.
  revert map. induction entries as [|[k' v'] entries IH]; intros map Hk; [done|].
  rewrite fmap_cons, not_elem_of_cons in Hk. destruct Hk as [Hne Hk].
  change (set_all ((k', v') :: entries) map)
    with (set_all entries (<[k' := v']> map)).
  rewrite (IH _ Hk). by apply lookup_insert_ne.
Qed.

(** The last entry set for a key is the one the index holds. *)
Lemma set_all_lookup entries k v :
  set_all entries ∅ !! k = Some v
  <-> exists before after, entries = before ++ (k, v) :: after /\ k ∉ after.*1.
Proof.
  split.
  - induction entries as [|[k' v'] entries IH] using rev_ind; [done|].
    rewrite set_all_snoc.
    destruct (decide (k = k')) as [<-|Hne].
    + rewrite lookup_insert_eq. intros [= <-].
      exists entries, []. split; [done|]. apply not_elem_of_nil.
    + rewrite lookup_insert_ne by done. intros Hk.
      destruct (IH Hk) as (before & after & -> & Hafter).
      exists before, (after ++ [(k', v')]). split; [by rewrite <- app_assoc|].
      rewrite fmap_app, not_elem_of_app. split; [done|].
      cbn. rewrite not_elem_of_cons. split; [done|apply not_elem_of_nil].
  - intros (before & after & -> & Hafter).
    rewrite set_all_app.
    change (set_all ((k, v) :: after) (set_all before ∅))
      with (set_all after (<[k := v]> (set_all before ∅))).
    rewrite (set_all_lookup_other _ _ _ Hafter). apply lookup_insert_eq.
Qed.

(** One entry for each key that was set. *)
Lemma set_all_dom entries (map : gmap string value) :
  dom (set_all entries map) = list_to_set entries.*1 ∪ dom map.
Proof.
  revert map. induction entries as [|[k v] entries IH]; intros map.
  - cbn. set_solver.
  - change (set_all ((k, v) :: entries) map)
      with (set_all entries (<[k := v]> map)).
    rewrite IH, dom_insert_L, fmap_cons. cbn. set_solver.
Qed.

(** A value whose [fields] can be read has its [id] read the same
    way. *)
Lemma get_is_Some v k k' : is_Some (get v k) -> get v k' = Some (get_opt v k').
Proof. destruct v; simpl; intros [? H]; done. Qed.

(** ** The operations of [AirtableRepo] *)

Section RepoFacts.

Context {St : Type}.
Variable fetch : string -> Options -> St -> Outcome Response * St.
Variable JSON_stringify : value -> string.
Variable env : Env.

#[local] Abbreviation serves := (serves fetch).
#[local] Abbreviation batch_request := (batch_request JSON_stringify env).
#[local] Abbreviation group_request := (group_request env).
#[local] Abbreviation send_groups := (send_groups fetch JSON_stringify env).
#[local] Abbreviation query_groups := (query_groups fetch env).
#[local] Abbreviation findAllByField := (findAllByField fetch env).
#[local] Abbreviation findOneByField := (findOneByField fetch env).

(** A request the store answers at once with a success costs one
    network call and no wait, under the default retry configuration. *)
Lemma requestJSON_served url options st lg res st1 reply :
  fetch url options st = (Resolved res, st1) ->
  retryable res = false ->
  ok res = true ->
  json res = Resolved reply ->
  requestJSON fetch url (Some options) None (mkWorld st lg)
  = (Resolved reply, mkWorld st1 (lg ++ [Fetch url options])).
Proof.
  intros Hfetch Hr Hok Hjson.
  rewrite (requestJSON_stops fetch url (Some options) None 0 st lg [] (Resolved res)).
  - unfold settlement. rewrite Hr, Hok, Hjson. simpl. by rewrite Hfetch.
  - done.
  - simpl. by rewrite Hfetch.
  - done.
  - intros res' [= <-] Hr'. congruence.
Qed.

(** Reading [json.records || []] and running through it. *)
Lemma read_records {B} json recs (k : list value -> Async St B) (w : World St) :
  reply_records json = Some recs ->
  (records <~ records_or_empty json ;;
   items <~ checked (elements records) ;;
   k items) w
  = k recs w.
Proof.
  unfold reply_records, records_or_empty, bind, checked, ret.
  destruct (get json "records") as [records|]; simpl; [|done].
  by intros ->.
Qed.

(** The batches the store serves one after the other: each is one call
    followed by the polite delay, and the records of its reply are
    appended to [out]. *)
Lemma send_groups_served meth table groups :
  forall st lg out replies recss st',
    serves st (batch_request meth table <$> groups) replies st' ->
    Forall2 (fun reply recs => reply_records reply = Some recs) replies recss ->
    send_groups meth table groups out (mkWorld st lg)
    = (Resolved (out ++ concat recss),
       mkWorld st'
         (lg ++ flat_map (fun rq => [Fetch rq.1 rq.2; Sleep (politeDelayMs (cfg env))])
                         (batch_request meth table <$> groups))).
Proof.
  induction groups as [|group groups IH]; intros st lg out replies recss st' Hsrv Hrecs.
  - inversion Hsrv; subst. inversion Hrecs; subst.
    simpl. unfold ret. by rewrite !app_nil_r.
  - rewrite fmap_cons in Hsrv.
    inversion Hsrv as [|? url options res st1 reply requests replies' ?
                         Hfetch Hr Hok Hjson Hrest]; subst.
    inversion Hrecs as [|? recs ? recss' Hrec Hrecs']; subst.
    cbn [Repo.send_groups]. unfold bind at 1.
    rewrite (requestJSON_served _ _ _ _ _ _ _ Hfetch Hr Hok Hjson).
    rewrite (read_records reply recs _ _ Hrec).
    unfold bind at 1, sleep. cbn [server log].
    rewrite (IH st1 _ (out ++ recs) replies' recss' st' Hrest Hrecs').
    rewrite fmap_cons. simpl concat. simpl flat_map.
    by rewrite <- !app_assoc.
Qed.

Lemma calls_batches (requests : list (string * Options)) d :
  calls (flat_map (fun rq => [Fetch rq.1 rq.2; Sleep d]) requests) = length requests.
Proof.
  induction requests as [|rq requests IH]; [done|].
  cbn [flat_map]. rewrite calls_app, IH. done.
Qed.

Lemma sleeps_batches (requests : list (string * Options)) d :
  sleeps (flat_map (fun rq => [Fetch rq.1 rq.2; Sleep d]) requests)
  = replicate (length requests) d.
Proof.
  induction requests as [|rq requests IH]; [done|].
  cbn [flat_map]. rewrite sleeps_app, IH. done.
Qed.

(** C9 (amended). [createMany] splits [n] records into [ceil(n / 10)]
    batches of at most 10, in input order; when the store serves each
    batch at the first attempt it issues exactly one POST per batch,
    waits the polite delay of 120 ms after every batch, the last one
    included, and resolves with the records of the replies in batch
    order.  Without the condition on the store the count of calls does
    not hold: a batch that is rate-limited is sent again. *)
Theorem createMany_batches table records st lg replies recss st' :
  let requests := batch_request "POST" table <$> chunk records 10 in
  serves st requests replies st' ->
  Forall2 (fun reply recs => reply_records reply = Some recs) replies recss ->
  let run := createMany fetch JSON_stringify env table records (mkWorld st lg) in
  run = (Resolved (VArr (concat recss)),
         mkWorld st' (lg ++ flat_map (fun rq => [Fetch rq.1 rq.2; Sleep 120]) requests))
  /\ length requests = ceil_div (length records) 10
  /\ Forall (fun group => (0 < length group <= 10)%nat) (chunk records 10)
  /\ concat (chunk records 10) = records
  /\ Forall (fun rq => method rq.2 = Some "POST") requests
  /\ calls (log run.2) = (calls lg + ceil_div (length records) 10)%nat
  /\ sleeps (log run.2) = sleeps lg ++ replicate (ceil_div (length records) 10) 120.
Proof.
  intros requests Hsrv Hrecs run.
  assert (Hlen : length requests = ceil_div (length records) 10).
  { unfold requests. by rewrite length_fmap, chunk_length. }
  assert (Hrun : run = (Resolved (VArr (concat recss)),
            mkWorld st' (lg ++ flat_map (fun rq => [Fetch rq.1 rq.2; Sleep 120]) requests))).
  { unfold run, createMany, bind.
    change (batchSize (cfg env)) with 10%nat.
    by rewrite (send_groups_served "POST" table (chunk records 10) st lg []
                  replies recss st' Hsrv Hrecs). }
  destruct (chunk_groups 10 ltac:(lia) records) as [Hgroups Hcat].
  rewrite Hrun. cbn [snd log].
  split_and!; [done|done|done|done| | |].
  - unfold requests. apply Forall_fmap, Forall_true. done.
  - by rewrite calls_app, calls_batches, Hlen.
  - by rewrite sleeps_app, sleeps_batches, Hlen.
Qed.

(** C10. With no record to send, [createMany] and [updateMany] resolve
    with an empty array and leave the world as it was: no network call,
    no polite delay. *)
Theorem createMany_updateMany_empty table (w : World St) :
  createMany fetch JSON_stringify env table [] w = (Resolved (VArr []), w)
  /\ updateMany fetch JSON_stringify env table [] w = (Resolved (VArr []), w)
  /\ calls (log (createMany fetch JSON_stringify env table [] w).2) = calls (log w)
  /\ sleeps (log (createMany fetch JSON_stringify env table [] w).2) = sleeps (log w)
  /\ calls (log (updateMany fetch JSON_stringify env table [] w).2) = calls (log w)
  /\ sleeps (log (updateMany fetch JSON_stringify env table [] w).2) = sleeps (log w).
Proof.
  assert (Hnone : chunk (@nil value) (batchSize (cfg env)) = []) by apply chunk_nil.
  assert (Hcreate : createMany fetch JSON_stringify env table [] w = (Resolved (VArr []), w)).
  { unfold createMany, bind. by rewrite Hnone. }
  assert (Hupdate : updateMany fetch JSON_stringify env table [] w = (Resolved (VArr []), w)).
  { unfold updateMany, bind. by rewrite Hnone. }
  rewrite Hcreate, Hupdate. done.
Qed.

#[local] Abbreviation lookup_request := (lookup_request env).
#[local] Abbreviation patch_request := (patch_request JSON_stringify env).
#[local] Abbreviation create_request := (create_request JSON_stringify env).
#[local] Abbreviation upsertByKey := (upsertByKey fetch JSON_stringify env).

(** A served lookup resolves with [json.records || []]. *)
Lemma findAllByField_served table field v st lg lookup found st' :
  serves st [lookup_request table field v] [lookup] st' ->
  get lookup "records" = Some found ->
  findAllByField table field v (mkWorld st lg)
  = (Resolved (or_else found (VArr [])),
     mkWorld st' (lg ++ [Fetch (lookup_request table field v).1
                               (lookup_request table field v).2])).
Proof.
  intros Hsrv Hfound.
  inversion Hsrv as [|? url options res st1 reply requests replies ?
                       Hfetch Hr Hok Hjson Hrest]; subst.
  inversion Hrest; subst.
  unfold Repo.findAllByField, bind.
  rewrite (requestJSON_served _ _ _ _ _ _ _ Hfetch Hr Hok Hjson).
  unfold records_or_empty, bind, checked. by rewrite Hfound.
Qed.

(** The answer of [findOneByField] to what a served lookup found. *)
Lemma findOneByField_served table field v st lg lookup found st' :
  serves st [lookup_request table field v] [lookup] st' ->
  get lookup "records" = Some found ->
  let all := indexed (or_else found (VArr [])) in
  findOneByField table field v (mkWorld st lg)
  = (if (1 <? length all)%nat && strictDuplicates (cfg env) then
       Rejected (Error ("Duplicate " +:+ table +:+ " where " +:+ field +:+ "="
                        +:+ dquote +:+ to_String v +:+ dquote +:+ " ("
                        +:+ pretty (length all) +:+ " found)"))
     else Resolved (or_else (default VUndefined (head all)) VNull),
     mkWorld st' (lg ++ [Fetch (lookup_request table field v).1
                               (lookup_request table field v).2])).
Proof.
  intros Hsrv Hfound all.
  unfold Repo.findOneByField, bind.
  rewrite (findAllByField_served _ _ _ _ _ _ _ _ Hsrv Hfound). fold all.
  by destruct ((1 <? length all)%nat && strictDuplicates (cfg env)).
Qed.

Lemma serves_cons_inv st rq requests reply replies st' :
  serves st (rq :: requests) (reply :: replies) st' ->
  exists st1, serves st [rq] [reply] st1 /\ serves st1 requests replies st'.
Proof.
  intros Hsrv.
  inversion Hsrv as [|? url options res st1 ? ? ? ? Hfetch Hr Hok Hjson Hrest]; subst.
  exists st1. split; [|done].
  eapply serves_cons; [done..|constructor].
Qed.

(** A falsy key value: the error names the key field and nothing is
    sent. *)
Lemma upsertByKey_missing_key table keyField fields keyVal (w : World St) :
  get fields keyField = Some keyVal ->
  truthy keyVal = false ->
  upsertByKey table keyField fields w
  = (Rejected (Error ("Upsert missing " +:+ keyField)), w).
Proof.
  intros Hkey Hfalsy. unfold Repo.upsertByKey, bind, checked.
  rewrite Hkey. simpl. by rewrite Hfalsy.
Qed.

(** More than one match under strict duplicates: the lookup is the
    only call and the error counts the matches. *)
Lemma upsertByKey_duplicates table keyField fields keyVal st lg lookup found st' :
  get fields keyField = Some keyVal ->
  truthy keyVal = true ->
  serves st [lookup_request table keyField keyVal] [lookup] st' ->
  get lookup "records" = Some found ->
  (1 < length (indexed (or_else found (VArr []))))%nat ->
  strictDuplicates (cfg env) = true ->
  upsertByKey table keyField fields (mkWorld st lg)
  = (Rejected (Error ("Duplicate " +:+ table +:+ " where " +:+ keyField +:+ "="
                      +:+ dquote +:+ to_String keyVal +:+ dquote +:+ " ("
                      +:+ pretty (length (indexed (or_else found (VArr []))))
                      +:+ " found)")),
     mkWorld st' (lg ++ [Fetch (lookup_request table keyField keyVal).1
                               (lookup_request table keyField keyVal).2])).
Proof.
  intros Hkey Htruthy Hsrv Hfound Hmany Hstrict.
  unfold Repo.upsertByKey, bind at 1, checked. rewrite Hkey. simpl.
  rewrite Htruthy. simpl. unfold bind at 1.
  rewrite (findOneByField_served _ _ _ _ _ _ _ _ Hsrv Hfound). cbn zeta.
  apply Nat.ltb_lt in Hmany. by rewrite Hmany, Hstrict.
Qed.

(** A single match, or a first match with strict duplicates off: the
    record found is patched and the call resolves with the [id] of the
    reply to the PATCH. *)
Lemma upsertByKey_existing table keyField fields keyVal st lg lookup found
    existing others id patched st' :
  get fields keyField = Some keyVal ->
  truthy keyVal = true ->
  serves st [lookup_request table keyField keyVal; patch_request table id fields]
         [lookup; patched] st' ->
  get lookup "records" = Some found ->
  indexed (or_else found (VArr [])) = existing :: others ->
  others = [] \/ strictDuplicates (cfg env) = false ->
  truthy existing = true ->
  get existing "id" = Some id ->
  upsertByKey table keyField fields (mkWorld st lg)
  = (match get patched "id" with
     | Some returned => Resolved returned
     | None => Rejected TypeError
     end,
     mkWorld st' (lg ++ [Fetch (lookup_request table keyField keyVal).1
                               (lookup_request table keyField keyVal).2;
                         Fetch (patch_request table id fields).1
                               (patch_request table id fields).2])).
Proof.
  intros Hkey Htruthy Hsrv Hfound Hall Hone Hexisting Hid.
  apply serves_cons_inv in Hsrv as (st1 & Hlookup & Hpatch).
  inversion Hpatch as [|? url options res st2 ? ? ? ? Hfetch Hr Hok Hjson Hrest]; subst.
  inversion Hrest; subst.
  unfold Repo.upsertByKey, bind at 1, checked. rewrite Hkey. simpl.
  rewrite Htruthy. simpl. unfold bind at 1.
  rewrite (findOneByField_served _ _ _ _ _ _ _ _ Hlookup Hfound). cbn zeta.
  rewrite Hall.
  assert (Hguard : (1 <? length (existing :: others))%nat
                   && strictDuplicates (cfg env) = false).
  { destruct Hone as [->| ->]; [done|apply andb_false_r]. }
  rewrite Hguard.
  change (default VUndefined (head (existing :: others))) with existing.
  assert (Hor : or_else existing VNull = existing)
    by (unfold or_else; by rewrite Hexisting).
  rewrite Hor, Hexisting. unfold bind at 1. rewrite Hid. unfold ret at 1.
  unfold bind.
  rewrite (requestJSON_served _ _ _ _ _ _ _ Hfetch Hr Hok Hjson).
  rewrite <- app_assoc. by destruct (get patched "id").
Qed.

(** No match: a record is created and the call resolves with the [id]
    of the first record of the reply to the POST. *)
Lemma upsertByKey_absent table keyField fields keyVal st lg lookup found
    posted records created id st' :
  get fields keyField = Some keyVal ->
  truthy keyVal = true ->
  serves st [lookup_request table keyField keyVal; create_request table fields]
         [lookup; posted] st' ->
  get lookup "records" = Some found ->
  indexed (or_else found (VArr [])) = [] ->
  get posted "records" = Some records ->
  first_of records = Some created ->
  get created "id" = Some id ->
  upsertByKey table keyField fields (mkWorld st lg)
  = (Resolved id,
     mkWorld st' (lg ++ [Fetch (lookup_request table keyField keyVal).1
                               (lookup_request table keyField keyVal).2;
                         Fetch (create_request table fields).1
                               (create_request table fields).2])).
Proof.
  intros Hkey Htruthy Hsrv Hfound Hall Hrecords Hfirst Hid.
  apply serves_cons_inv in Hsrv as (st1 & Hlookup & Hpost).
  inversion Hpost as [|? url options res st2 ? ? ? ? Hfetch Hr Hok Hjson Hrest]; subst.
  inversion Hrest; subst.
  unfold Repo.upsertByKey, bind at 1, checked. rewrite Hkey. simpl.
  rewrite Htruthy. simpl. unfold bind at 1.
  rewrite (findOneByField_served _ _ _ _ _ _ _ _ Hlookup Hfound). cbn zeta.
  rewrite Hall. cbn. unfold bind.
  rewrite (requestJSON_served _ _ _ _ _ _ _ Hfetch Hr Hok Hjson).
  rewrite Hrecords. unfold ret at 1. rewrite Hfirst. unfold ret at 1. rewrite Hid.
  unfold ret. by rewrite <- app_assoc.
Qed.

(** C8 (amended). [upsertByKey] rejects with [Upsert missing <keyField>]
    and sends nothing when [fields[keyField]] is falsy.  Otherwise,
    when the store answers each request at the first attempt and lists
    the matches of the lookup as an array, it looks the key up with one
    GET, and: when several records match under strict duplicates, it
    rejects with the [Duplicate ...] error and sends no PATCH; when one
    record matches, or a first one with strict duplicates off, it sends
    one PATCH to that record and resolves with the [id] of the reply,
    the identifier of the record when the store answers with the record
    it updated; when none matches (the list is empty, or the reply
    carries none), it sends one POST and resolves with the [id] of the
    first record of the reply. *)
Theorem upsertByKey_cases table keyField fields keyVal st lg :
  get fields keyField = Some keyVal ->
  (truthy keyVal = false ->
   upsertByKey table keyField fields (mkWorld st lg)
   = (Rejected (Error ("Upsert missing " +:+ keyField)), mkWorld st lg))
  /\ (forall lookup all st',
        truthy keyVal = true ->
        serves st [lookup_request table keyField keyVal] [lookup] st' ->
        get lookup "records" = Some (VArr all) ->
        (1 < length all)%nat ->
        strictDuplicates (cfg env) = true ->
        upsertByKey table keyField fields (mkWorld st lg)
        = (Rejected (Error ("Duplicate " +:+ table +:+ " where " +:+ keyField +:+ "="
                            +:+ dquote +:+ to_String keyVal +:+ dquote +:+ " ("
                            +:+ pretty (length all) +:+ " found)")),
           mkWorld st' (lg ++ [Fetch (lookup_request table keyField keyVal).1
                                     (lookup_request table keyField keyVal).2]))
        /\ method (lookup_request table keyField keyVal).2 = None)
  /\ (forall lookup existing others rid patched st',
        truthy keyVal = true ->
        serves st [lookup_request table keyField keyVal;
                   patch_request table rid fields] [lookup; patched] st' ->
        get lookup "records" = Some (VArr (existing :: others)) ->
        others = [] \/ strictDuplicates (cfg env) = false ->
        truthy existing = true ->
        get existing "id" = Some rid ->
        upsertByKey table keyField fields (mkWorld st lg)
        = (match get patched "id" with
           | Some returned => Resolved returned
           | None => Rejected TypeError
           end,
           mkWorld st' (lg ++ [Fetch (lookup_request table keyField keyVal).1
                                     (lookup_request table keyField keyVal).2;
                               Fetch (patch_request table rid fields).1
                                     (patch_request table rid fields).2]))
        /\ method (lookup_request table keyField keyVal).2 = None
        /\ method (patch_request table rid fields).2 = Some "PATCH"
        /\ (get patched "id" = Some rid ->
            (upsertByKey table keyField fields (mkWorld st lg)).1 = Resolved rid))
  /\ (forall lookup found posted created more rid st',
        truthy keyVal = true ->
        serves st [lookup_request table keyField keyVal;
                   create_request table fields] [lookup; posted] st' ->
        get lookup "records" = Some found ->
        found = VArr [] \/ truthy found = false ->
        get posted "records" = Some (VArr (created :: more)) ->
        get created "id" = Some rid ->
        upsertByKey table keyField fields (mkWorld st lg)
        = (Resolved rid,
           mkWorld st' (lg ++ [Fetch (lookup_request table keyField keyVal).1
                                     (lookup_request table keyField keyVal).2;
                               Fetch (create_request table fields).1
                                     (create_request table fields).2]))
        /\ method (lookup_request table keyField keyVal).2 = None
        /\ method (create_request table fields).2 = Some "POST").
Proof.
  intros Hkey. split_and!.
  - intros Hfalsy. by apply (upsertByKey_missing_key _ _ _ keyVal).
  - intros lookup all st' Htruthy Hsrv Hfound Hmany Hstrict. split; [|done].
    by apply (upsertByKey_duplicates _ _ _ keyVal _ _ lookup (VArr all)).
  - intros lookup existing others rid patched st'
      Htruthy Hsrv Hfound Hone Hexisting Hid.
    pose proof (upsertByKey_existing _ _ _ _ _ lg _ (VArr (existing :: others))
                  existing others _ _ _
                  Hkey Htruthy Hsrv Hfound eq_refl Hone Hexisting Hid) as Hrun.
    split_and!; [exact Hrun|done|done|].
    intros Hsame. rewrite Hrun, Hsame. done.
  - intros lookup found posted created more rid st'
      Htruthy Hsrv Hfound Hnone Hrecords Hid.
    split; [|done].
    apply (upsertByKey_absent _ _ _ keyVal _ _ lookup found posted
             (VArr (created :: more)) created); try done.
    destruct Hnone as [->|Hfalsy]; [done|].
    unfold or_else. by rewrite Hfalsy.
Qed.

(** The inner loop adds the entry of each record in turn. *)
Lemma index_records_readable keyField records :
  forall (map : gmap string value) (w : World St),
    Forall (fun rec => is_Some (get rec "fields")) records ->
    index_records keyField records map w
    = (Resolved (set_all (omap (key_entry keyField) records) map), w).
Proof.
  induction records as [|rec records IH]; intros map w Hall; [done|].
  apply Forall_cons in Hall as [Hrec Hall].
  cbn [index_records omap list_omap]. unfold bind at 1, checked.
  rewrite (get_is_Some rec "fields" "fields" Hrec). unfold ret at 1.
  unfold key_entry at 1.
  destruct (truthy (get_opt (get_opt rec "fields") keyField)).
  - unfold bind. rewrite (get_is_Some rec "fields" "id" Hrec). unfold ret at 1.
    by rewrite IH.
  - by rewrite IH.
Qed.

(** The groups the store serves one after the other: one call each, no
    wait, and the records of every reply indexed in turn. *)
Lemma query_groups_served table keyField groups :
  forall st lg (map : gmap string value) replies recss st',
    serves st (group_request table <$> groups) replies st' ->
    Forall2 (fun reply recs => reply_records reply = Some recs) replies recss ->
    Forall (fun rec => is_Some (get rec "fields")) (concat recss) ->
    query_groups table keyField groups map (mkWorld st lg)
    = (Resolved (set_all (omap (key_entry keyField) (concat recss)) map),
       mkWorld st'
         (lg ++ ((fun rq => Fetch rq.1 rq.2) <$> (group_request table <$> groups)))).
Proof.
  induction groups as [|group groups IH];
    intros st lg map replies recss st' Hsrv Hrecs Hread.
  - inversion Hsrv; subst. inversion Hrecs; subst.
    simpl. unfold ret. by rewrite app_nil_r.
  - rewrite fmap_cons in Hsrv.
    inversion Hsrv as [|? url options res st1 reply requests replies' ?
                         Hfetch Hr Hok Hjson Hrest]; subst.
    inversion Hrecs as [|? recs ? recss' Hrec Hrecs']; subst.
    simpl concat in Hread. apply Forall_app in Hread as [Hread1 Hread2].
    cbn [Repo.query_groups]. unfold bind at 1.
    rewrite (requestJSON_served _ _ _ _ _ _ _ Hfetch Hr Hok Hjson).
    rewrite (read_records reply recs _ _ Hrec).
    unfold bind at 1. rewrite (index_records_readable keyField recs _ _ Hread1).
    rewrite (IH st1 _ _ replies' recss' st' Hrest Hrecs' Hread2).
    rewrite !fmap_cons. simpl concat. rewrite omap_app, set_all_app.
    by rewrite <- app_assoc.
Qed.

Lemma calls_fetches (requests : list (string * Options)) :
  calls ((fun rq => Fetch rq.1 rq.2) <$> requests) = length requests.
Proof.
  induction requests as [|rq requests IH]; [done|].
  rewrite fmap_cons.
  change (calls (Fetch rq.1 rq.2 :: ((fun rq => Fetch rq.1 rq.2) <$> requests)))
    with (S (calls ((fun rq => Fetch rq.1 rq.2) <$> requests))).
  by rewrite IH.
Qed.

Lemma filter_truthy_all (keys : list value) :
  Forall (fun k => truthy k = true) keys -> List.filter truthy keys = keys.
Proof.
  induction 1 as [|k keys Hk _ IH]; [done|]. simpl. by rewrite Hk, IH.
Qed.

(** C7 (amended). [findRecordsByKeys] drops the falsy keys, puts the
    conditions of the [t] truthy keys in groups of at most 20 and, when
    the store serves each group at the first attempt, issues exactly
    [ceil(t / 20)] calls, one GET per group, which is
    [ceil(keys.length / 20)] when every key is truthy.  The mapping it
    resolves with has one entry for each stringified truthy key among
    the records of the replies, bound to the identifier of the last
    such record. *)
Theorem findRecordsByKeys_groups table keyField keys st lg replies recss st' :
  let wanted := List.filter truthy keys in
  let groups := chunk (equals_formula keyField <$> wanted) 20 in
  let requests := group_request table <$> groups in
  serves st requests replies st' ->
  Forall2 (fun reply recs => reply_records reply = Some recs) replies recss ->
  Forall (fun rec => is_Some (get rec "fields")) (concat recss) ->
  let run := findRecordsByKeys fetch env table keyField keys (mkWorld st lg) in
  let entries := omap (key_entry keyField) (concat recss) in
  exists map,
    run = (Resolved map,
           mkWorld st' (lg ++ ((fun rq => Fetch rq.1 rq.2) <$> requests)))
    /\ length requests = ceil_div (length wanted) 20
    /\ (Forall (fun k => truthy k = true) keys ->
        length requests = ceil_div (length keys) 20)
    /\ Forall (fun group => (0 < length group <= 20)%nat) groups
    /\ concat groups = equals_formula keyField <$> wanted
    /\ Forall (fun rq => method rq.2 = None) requests
    /\ calls (log run.2) = (calls lg + ceil_div (length wanted) 20)%nat
    /\ dom map = list_to_set entries.*1
    /\ (forall k v,
          map !! k = Some v
          <-> exists before after,
                entries = before ++ (k, v) :: after /\ k ∉ after.*1).
Proof.
  intros wanted groups requests Hsrv Hrecs Hread run entries.
  exists (set_all entries ∅).
  assert (Hlen : length requests = ceil_div (length wanted) 20).
  { unfold requests, groups. by rewrite length_fmap, chunk_length, length_fmap. }
  assert (Hrun : run = (Resolved (set_all entries ∅),
            mkWorld st' (lg ++ ((fun rq => Fetch rq.1 rq.2) <$> requests)))).
  { unfold run, findRecordsByKeys.
    by rewrite (query_groups_served table keyField groups st lg ∅
                  replies recss st' Hsrv Hrecs Hread). }
  destruct (chunk_groups 20 ltac:(lia) (equals_formula keyField <$> wanted))
    as [Hgroups Hcat].
  rewrite Hrun. cbn [snd log].
  split_and!; [done|done| |done|done| | | |].
  - intros Hall. rewrite Hlen. unfold wanted. by rewrite filter_truthy_all.
  - unfold requests. apply Forall_fmap, Forall_true. done.
  - by rewrite calls_app, calls_fetches, Hlen.
  - rewrite set_all_dom, dom_empty_L. set_solver.
  - apply set_all_lookup.
Qed.

End RepoFacts.

(** ** Scenarios of the repository *)

(** The URL of a lookup, as [encodeURIComponent] writes the formula. *)
Example lookup_url_encoded :
  (lookup_request env0 "leads" "placeId" (VStr "p1")).1
  = "https://api.airtable.com/v0/appBase/leads?filterByFormula=%7BplaceId%7D%20%3D%20%22p1%22&pageSize=100".
Proof. reflexivity. Qed.

(** Eleven records: two POSTs, of ten records and of one, each
    followed by the polite delay. *)
Lemma createMany_batches_witness :
  let requests := batch_request Mock.stringify env0 "POST" "leads" <$> chunk eleven 10 in
  let run := createMany one_per_batch Mock.stringify env0 "leads" eleven start in
  run = (Resolved (VArr [stored "rec1" "p"; stored "rec1" "p"]),
         mkWorld 2%nat (flat_map (fun rq => [Fetch rq.1 rq.2; Sleep 120]) requests))
  /\ length requests = 2%nat
  /\ Forall (fun group => (0 < length group <= 10)%nat) (chunk eleven 10)
  /\ concat (chunk eleven 10) = eleven
  /\ Forall (fun rq => method rq.2 = Some "POST") requests
  /\ calls (log run.2) = 2%nat
  /\ sleeps (log run.2) = [120; 120].
Proof.
  apply (createMany_batches one_per_batch Mock.stringify env0 "leads" eleven
           0%nat [] [listing [stored "rec1" "p"]; listing [stored "rec1" "p"]]
           [[stored "rec1" "p"]; [stored "rec1" "p"]] 2%nat).
  - vm_compute. serve_all.
  - repeat constructor.
Defined.

Example createMany_batch_sizes : length <$> chunk eleven 10 = [10; 1]%nat.
Proof. reflexivity. Qed.

(** C9 as stated fails on a store that rate-limits the first call: the
    first batch of the eleven records is sent twice, with the backoff
    wait of 400 ms in between, so the two batches take three POSTs. *)
Lemma createMany_rate_limited_counterexample :
  let run := createMany limited_once Mock.stringify env0 "leads" eleven start in
  length eleven = 11%nat
  /\ ceil_div (length eleven) 10 = 2%nat
  /\ run.1 = Resolved (VArr [stored "rec1" "p"; stored "rec1" "p"])
  /\ methods (log run.2) = [Some "POST"; Some "POST"; Some "POST"]
  /\ calls (log run.2) = 3%nat
  /\ calls (log run.2) <> ceil_div (length eleven) 10
  /\ sleeps (log run.2) = [400; 120; 120].
Proof. vm_compute. split_and!; done. Qed.

(** [upsertByKey] without a key, with the key held by two records, by
    one, and by none. *)
Lemma upsertByKey_cases_witness :
  upsertByKey empty_store Mock.stringify env0 "leads" "placeId"
    (VObj [("title", VStr "Cafe")]) start
  = (Rejected (Error "Upsert missing placeId"), start)
  /\ (upsertByKey holds_two Mock.stringify env0 "leads" "placeId"
        (VObj [("placeId", VStr "p1")]) start).1
     = Rejected (Error ("Duplicate leads where placeId=" +:+ dquote +:+ "p1"
                        +:+ dquote +:+ " (2 found)"))
  /\ (upsertByKey holds_one Mock.stringify env0 "leads" "placeId"
        (VObj [("placeId", VStr "p1")]) start).1
     = Resolved (VStr "rec1")
  /\ (upsertByKey holds_none Mock.stringify env0 "leads" "placeId"
        (VObj [("placeId", VStr "p1")]) start).1
     = Resolved (VStr "rec2").
Proof.
  unfold start. split_and!.
  - apply (upsertByKey_cases empty_store Mock.stringify env0 "leads" "placeId"
             (VObj [("title", VStr "Cafe")]) VUndefined 0%nat []); reflexivity.
  - destruct (upsertByKey_cases holds_two Mock.stringify env0 "leads" "placeId"
                (VObj [("placeId", VStr "p1")]) (VStr "p1") 0%nat [] eq_refl)
      as (_ & Hdup & _).
    destruct (Hdup (listing [stored "rec1" "p1"; stored "rec7" "p1"])
                [stored "rec1" "p1"; stored "rec7" "p1"] 1%nat) as [Hrun _].
    + reflexivity.
    + serve_all.
    + reflexivity.
    + simpl. lia.
    + reflexivity.
    + by rewrite Hrun.
  - destruct (upsertByKey_cases holds_one Mock.stringify env0 "leads" "placeId"
                (VObj [("placeId", VStr "p1")]) (VStr "p1") 0%nat [] eq_refl)
      as (_ & _ & Hone & _).
    apply (Hone (listing [stored "rec1" "p1"])
             (stored "rec1" "p1") [] (VStr "rec1") (stored "rec1" "p1") 2%nat).
    + reflexivity.
    + serve_all.
    + reflexivity.
    + by left.
    + reflexivity.
    + reflexivity.
    + reflexivity.
  - destruct (upsertByKey_cases holds_none Mock.stringify env0 "leads" "placeId"
                (VObj [("placeId", VStr "p1")]) (VStr "p1") 0%nat [] eq_refl)
      as (_ & _ & _ & Hnone).
    destruct (Hnone (listing []) (VArr []) (listing [stored "rec2" "p1"])
                (stored "rec2" "p1") [] (VStr "rec2") 2%nat)
      as [Hrun _].
    + reflexivity.
    + serve_all.
    + reflexivity.
    + by left.
    + reflexivity.
    + reflexivity.
    + by rewrite Hrun.
Defined.

(** C8 as stated fails in two places.  With the key held by two
    records under strict duplicates, a record with the key exists, yet
    the lookup is the only call and the call rejects.  With the key
    held by one record and a store that answers the PATCH with an empty
    object, the PATCH is sent to the record and the call resolves with
    [undefined], not with the identifier of the record. *)
Lemma upsertByKey_existing_counterexample :
  let duplicated := upsertByKey holds_two Mock.stringify env0 "leads" "placeId"
                      (VObj [("placeId", VStr "p1")]) start in
  let unechoed := upsertByKey holds_one_silent Mock.stringify env0 "leads" "placeId"
                    (VObj [("placeId", VStr "p1")]) start in
  (duplicated.1 = Rejected (Error ("Duplicate leads where placeId=" +:+ dquote +:+ "p1"
                                   +:+ dquote +:+ " (2 found)"))
   /\ methods (log duplicated.2) = [None]
   /\ duplicated.1 <> Resolved (VStr "rec1"))
  /\ (unechoed.1 = Resolved VUndefined
      /\ methods (log unechoed.2) = [None; Some "PATCH"]
      /\ unechoed.1 <> Resolved (VStr "rec1")).
Proof. vm_compute. split_and!; done. Qed.

(** Twenty-one truthy keys: two GETs, and the identifier of the last
    record seen for a key is the one kept. *)
Lemma findRecordsByKeys_groups_witness :
  let wanted := List.filter truthy keys21 in
  let groups := chunk (equals_formula "placeId" <$> wanted) 20 in
  let requests := group_request env0 "leads" <$> groups in
  let run := findRecordsByKeys two_pages env0 "leads" "placeId" keys21 start in
  let entries := omap (key_entry "placeId")
                   [numbered "recA" 1; numbered "recB" 2; numbered "recC" 1] in
  exists map,
    run = (Resolved map, mkWorld 2%nat ((fun rq => Fetch rq.1 rq.2) <$> requests))
    /\ length requests = 2%nat
    /\ (Forall (fun k => truthy k = true) keys21 ->
        length requests = ceil_div (length keys21) 20)
    /\ Forall (fun group => (0 < length group <= 20)%nat) groups
    /\ concat groups = equals_formula "placeId" <$> wanted
    /\ Forall (fun rq => method rq.2 = None) requests
    /\ calls (log run.2) = 2%nat
    /\ dom map = list_to_set entries.*1
    /\ (forall k v,
          map !! k = Some v
          <-> exists before after,
                entries = before ++ (k, v) :: after /\ k ∉ after.*1).
Proof.
  apply (findRecordsByKeys_groups two_pages env0 "leads" "placeId" keys21 0%nat []
           [listing [numbered "recA" 1; numbered "recB" 2]; listing [numbered "recC" 1]]
           [[numbered "recA" 1; numbered "recB" 2]; [numbered "recC" 1]] 2%nat).
  - vm_compute. serve_all.
  - repeat constructor.
  - repeat constructor; by eexists.
Defined.

Example findRecordsByKeys_last_wins :
  let run := findRecordsByKeys two_pages env0 "leads" "placeId" keys21 start in
  exists map,
    run.1 = Resolved map
    /\ map !! "1" = Some (VStr "recC")
    /\ map !! "2" = Some (VStr "recB")
    /\ size map = 2%nat.
Proof. eexists. split; [reflexivity|]. vm_compute. done. Qed.

(** C7 as stated fails on a list of 21 keys of which one is [null]:
    the conditions of the 20 truthy keys make one group, so one call is
    issued where [ceil(keys.length / 20)] is 2. *)
Lemma findRecordsByKeys_falsy_key_counterexample :
  let run := findRecordsByKeys empty_store env0 "leads" "placeId" keys20_null start in
  (20 < length keys20_null)%nat
  /\ ceil_div (length keys20_null) 20 = 2%nat
  /\ run.1 = Resolved ∅
  /\ calls (log run.2) = 1%nat
  /\ calls (log run.2) <> ceil_div (length keys20_null) 20.
Proof. vm_compute. split_and!; [lia|done..]. Qed.

(** * Further properties of [requestJSON] *)

Section HttpBounds.

Context {St : Type}.
Variable fetch : string -> Options -> St -> Outcome Response * St.

Lemma total_wait_app (l1 l2 : list Event) :
  total_wait (l1 ++ l2) = total_wait l1 + total_wait l2.
Proof.
  unfold total_wait. rewrite sleeps_app.
  generalize (sleeps l1) (sleeps l2). intros a b.
  induction a as [|ms a IH]; [done|].
  change (ms + foldr Z.add 0 (a ++ b) = ms + foldr Z.add 0 a + foldr Z.add 0 b).
  rewrite IH. apply Z.add_assoc.
Qed.

(** The backoff waits of [k] retried attempts from index [a] add up
    to [base * 2^a * (2^k - 1)]. *)
Lemma total_wait_backoff_from url options base (k : nat) :
  forall a : nat,
    total_wait (backoff_trace url options base a k)
    = base * 2 ^ Z.of_nat a * (2 ^ Z.of_nat k - 1).
Proof.
  induction k as [|k IH]; intros a.
  - change (0 = base * 2 ^ Z.of_nat a * (1 - 1)). lia.
  - rewrite backoff_trace_S, total_wait_app, IH.
    change (total_wait [Fetch url options; Sleep (base * 2 ^ Z.of_nat a)])
      with (base * 2 ^ Z.of_nat a + 0).
    rewrite !Nat2Z.inj_succ, !Z.pow_succ_r by lia. lia.
Qed.

Lemma total_wait_backoff_trace url options base (k : nat) :
  total_wait (backoff_trace url options base 0 k) = base * (2 ^ Z.of_nat k - 1).
Proof. rewrite total_wait_backoff_from. change (2 ^ Z.of_nat 0) with 1. lia. Qed.

(** X1. With a non-negative retry count, whatever the server answers,
    a call of [requestJSON] issues at least one and at most
    [retries + 1] network calls, and waits exactly once between two
    consecutive calls: one wait less than calls. *)
Theorem requestJSON_call_bound url options rc (w : World St) :
  0 <= retries_of rc ->
  let run := requestJSON fetch url options rc w in
  (calls (log w) < calls (log run.2))%nat
  /\ (calls (log run.2) <= calls (log w) + Z.to_nat (retries_of rc + 1))%nat
  /\ (length (sleeps (log run.2)) + calls (log w) + 1
      = length (sleeps (log w)) + calls (log run.2))%nat.
Proof.
  intros Hretries run.
  destruct (requestJSON_shape fetch url options rc w)
    as (k & rs & _ & _ & Hidx & Hrun).
  fold run in Hrun.
  destruct Hrun as [[-> _]|(Hlt & -> & _)].
  { exfalso. apply (Hidx (Z.to_nat (retries_of rc))); lia. }
  rewrite !calls_app, !sleeps_app, !length_app, calls_backoff_trace,
    sleeps_backoff_trace, length_fmap, length_seq.
  change (calls [Fetch url (default no_options options)]) with 1%nat.
  change (length (sleeps [Fetch url (default no_options options)])) with 0%nat.
  lia.
Qed.

(** X2. With a negative retry count the loop body never runs:
    [requestJSON] issues no network call, waits for nothing and
    resolves with [undefined], whatever the server would have
    answered. *)
Theorem requestJSON_without_attempts url options rc (w : World St) :
  retries_of rc < 0 ->
  requestJSON fetch url options rc w = (Resolved VUndefined, w).
Proof.
  intros Hneg. rewrite requestJSON_unfold. unfold attempt_indices.
  replace (Z.to_nat (retries_of rc + 1)) with 0%nat by lia. done.
Qed.

(** X3. A success answer whose body does not parse is not retried:
    after [k] retried attempts within the budget, [requestJSON] rejects
    with the error of [res.json()] itself, and the call that fetched
    the answer is the last event of the run. *)
Theorem requestJSON_parse_failure url options rc (k : nat) st lg rs res e :
  Z.of_nat k <= retries_of rc ->
  answers fetch url (default no_options options) (S k) st
    = (Resolved <$> rs) ++ [Resolved res] ->
  Forall (fun r => retryable r = true) rs ->
  retryable res = false ->
  ok res = true ->
  json res = Rejected e ->
  let run := requestJSON fetch url options rc (mkWorld st lg) in
  run.1 = Rejected e
  /\ log run.2
     = lg ++ backoff_trace url (default no_options options) (baseDelayMs_of rc) 0 k
          ++ [Fetch url (default no_options options)]
  /\ calls (log run.2) = (calls lg + (k + 1))%nat.
Proof.
  intros Hk Hans Hretry Hr Hok Hjson run. unfold run.
  rewrite (requestJSON_stops fetch url options rc k st lg rs (Resolved res) Hk Hans Hretry).
  - cbn [fst snd log settlement]. rewrite Hr, Hok, Hjson. simpl.
    split_and!; [done|done|].
    rewrite !calls_app, calls_backoff_trace. done.
  - intros res' [= <-] Hr'. congruence.
Qed.

(** X4. With a non-negative retry count and base delay, whatever the
    server answers, the waits of one call of [requestJSON] add up to at
    most [baseDelayMs * (2^retries - 1)]: 12400 ms under the default
    configuration. *)
Theorem requestJSON_wait_bound url options rc (w : World St) :
  0 <= retries_of rc ->
  0 <= baseDelayMs_of rc ->
  let run := requestJSON fetch url options rc w in
  total_wait (log w) <= total_wait (log run.2)
  /\ total_wait (log run.2)
     <= total_wait (log w) + baseDelayMs_of rc * (2 ^ retries_of rc - 1).
Proof.
  intros Hretries Hbase run.
  destruct (requestJSON_shape fetch url options rc w)
    as (k & rs & _ & _ & Hidx & Hrun).
  fold run in Hrun.
  destruct Hrun as [[-> _]|(Hlt & -> & _)].
  { exfalso. apply (Hidx (Z.to_nat (retries_of rc))); lia. }
  rewrite !total_wait_app, total_wait_backoff_trace.
  change (total_wait [Fetch url (default no_options options)]) with 0.
  assert (Hpow : 1 <= 2 ^ Z.of_nat k <= 2 ^ retries_of rc).
  { split; [|apply Z.pow_le_mono_r; lia].
    pose proof (Z.pow_pos_nonneg 2 (Z.of_nat k)). lia. }
  nia.
Qed.


(** X6. A client error that comes after [k] retried attempts is
    reported like one that comes first: [requestJSON] rejects with
    [HTTP <status>: <text>], without the retry count, after [k + 1]
    calls, and does not call again. *)
Theorem requestJSON_late_client_error url options rc (k : nat) st lg rs res :
  Z.of_nat k <= retries_of rc ->
  answers fetch url (default no_options options) (S k) st
    = (Resolved <$> rs) ++ [Resolved res] ->
  Forall (fun r => retryable r = true) rs ->
  retryable res = false ->
  ok res = false ->
  let run := requestJSON fetch url options rc (mkWorld st lg) in
  run.1 = Rejected (Error ("HTTP " +:+ pretty (status res) +:+ ": "
                           +:+ text_or_empty res))
  /\ log run.2
     = lg ++ backoff_trace url (default no_options options) (baseDelayMs_of rc) 0 k
          ++ [Fetch url (default no_options options)]
  /\ calls (log run.2) = (calls lg + (k + 1))%nat.
Proof.
  intros Hk Hans Hretry Hr Hok run. unfold run.
  rewrite (requestJSON_stops fetch url options rc k st lg rs (Resolved res) Hk Hans Hretry).
  - cbn [fst snd log settlement]. rewrite Hr, Hok. simpl.
    split_and!; [done|done|].
    rewrite !calls_app, calls_backoff_trace. done.
  - intros res' [= <-] Hr'. congruence.
Qed.

End HttpBounds.

(** * Further properties of the repository *)

(** ** [chunk] and [quote] *)

Lemma ceil_div_full_groups n size i :
  (0 < size)%nat -> (S i < ceil_div n size)%nat -> ((i + 1) * size <= n)%nat.
Proof.
  intros Hsize Hi. unfold ceil_div in Hi.
  pose proof (Nat.div_mod_eq n size) as Hn.
  pose proof (Nat.mod_upper_bound n size ltac:(lia)) as Hr.
  destruct (Nat.eqb_spec (n mod size) 0); nia.
Qed.

(** X7. For a positive size, [chunk] cuts the array into consecutive
    slices: group [i] is the [size] items from position [i * size],
    fewer only for the last group; there are [ceil(n / size)] groups,
    none empty, and put end to end they are the array. *)
Theorem chunk_partition {A} (arr : list A) (size : nat) :
  (0 < size)%nat ->
  let groups := chunk arr size in
  concat groups = arr
  /\ length groups = ceil_div (length arr) size
  /\ Forall (fun group => (0 < length group <= size)%nat) groups
  /\ (forall i group,
        groups !! i = Some group ->
        group = take size (drop (i * size) arr)
        /\ ((S i < length groups)%nat -> length group = size)).
Proof.
  intros Hsize groups.
  destruct (chunk_groups size Hsize arr) as [Hall Hcat].
  split_and!; [done|apply chunk_length|done|].
  intros i group Hlookup. unfold groups in *. rewrite chunk_length.
  unfold chunk in Hlookup. rewrite list_lookup_fmap in Hlookup.
  destruct (seq 0 (ceil_div (length arr) size) !! i) as [j|] eqn:Hseq; [|done].
  apply lookup_seq in Hseq as [-> Hi]. simpl in Hlookup.
  injection Hlookup as <-. unfold slice.
  replace ((i + 1) * size - i * size)%nat with size by lia.
  split; [done|]. intros Hnext.
  pose proof (ceil_div_full_groups (length arr) size i Hsize Hnext).
  rewrite length_take, length_drop. lia.
Qed.

Lemma escape_dquotes_escaped s : forall b, dquotes_escaped b (escape_dquotes s) = true.
Proof.
  induction s as [|c s IH]; intros b; [done|]. simpl.
  destruct (Ascii.eqb c (Ascii.ascii_of_nat 34)) eqn:Hc.
  - apply Ascii.eqb_eq in Hc as ->. simpl. apply IH.
  - simpl. rewrite Hc. apply IH.
Qed.

Lemma escape_dquotes_head s :
  match escape_dquotes s with
  | String c _ => Ascii.eqb c (Ascii.ascii_of_nat 34) = false
  | EmptyString => s = EmptyString
  end.
Proof.
  destruct s as [|c s]; [done|]. simpl.
  by destruct (Ascii.eqb c (Ascii.ascii_of_nat 34)) eqn:Hc.
Qed.

Lemma drop_escape_dquotes s : drop_dquote_escapes (escape_dquotes s) = s.
Proof.
  induction s as [|c s IH]; [done|].
  cbn [escape_dquotes].
  destruct (Ascii.eqb c (Ascii.ascii_of_nat 34)) eqn:Hc.
  - apply Ascii.eqb_eq in Hc as ->.
    change (String (Ascii.ascii_of_nat 34) (drop_dquote_escapes (escape_dquotes s))
            = String (Ascii.ascii_of_nat 34) s).
    by rewrite IH.
  - pose proof (escape_dquotes_head s) as Hhead.
    destruct (escape_dquotes s) as [|c' rest] eqn:Hesc.
    + by subst s.
    + cbn [drop_dquote_escapes]. rewrite Hhead, andb_false_r.
      fold drop_dquote_escapes.
      change (String c (drop_dquote_escapes (String c' rest)) = String c s).
      by rewrite IH.
Qed.

Lemma escape_dquotes_length s :
  String.length (escape_dquotes s) = (String.length s + count_dquotes s)%nat.
Proof.
  induction s as [|c s IH]; [done|]. simpl.
  destruct (Ascii.eqb c (Ascii.ascii_of_nat 34)); simpl; rewrite IH; lia.
Qed.

Lemma escape_dquotes_none s : count_dquotes s = 0%nat -> escape_dquotes s = s.
Proof.
  induction s as [|c s IH]; [done|]. simpl.
  destruct (Ascii.eqb c (Ascii.ascii_of_nat 34)); [done|].
  intros Hs. by rewrite IH.
Qed.

(** X8. In [quote(v)] every double quote comes right after a backslash,
    and taking those backslashes away gives back [String(v)]: values
    with different strings are quoted differently.  One backslash is
    added for each double quote and nothing else changes, so text
    without a double quote, a backslash of its own included, is left as
    it is. *)
Theorem quote_escapes_dquotes (v : value) :
  dquotes_escaped false (quote v) = true
  /\ drop_dquote_escapes (quote v) = to_String v
  /\ String.length (quote v)
     = (String.length (to_String v) + count_dquotes (to_String v))%nat
  /\ (count_dquotes (to_String v) = 0%nat -> quote v = to_String v)
  /\ (forall v', quote v = quote v' -> to_String v = to_String v').
Proof.
  unfold quote. split_and!.
  - apply escape_dquotes_escaped.
  - apply drop_escape_dquotes.
  - apply escape_dquotes_length.
  - apply escape_dquotes_none.
  - intros v' Heq.
    rewrite <- (drop_escape_dquotes (to_String v)), Heq.
    apply drop_escape_dquotes.
Qed.

(** ** Lookups, updates and failures *)

Section RepoMore.

Context {St : Type}.
Variable fetch : string -> Options -> St -> Outcome Response * St.
Variable JSON_stringify : value -> string.
Variable env : Env.

#[local] Abbreviation serves := (serves fetch).
#[local] Abbreviation delivers := (delivers fetch).
#[local] Abbreviation batch_request := (batch_request JSON_stringify env).
#[local] Abbreviation send_groups := (send_groups fetch JSON_stringify env).
#[local] Abbreviation lookup_request := (lookup_request env).

(** A request whose first answer is a client error or a transport
    failure rejects at once, under the default retry configuration. *)
Lemma requestJSON_refused url options st lg o st1 :
  fetch url options st = (o, st1) ->
  refused o ->
  requestJSON fetch url (Some options) None (mkWorld st lg)
  = (Rejected (refusal o), mkWorld st1 (lg ++ [Fetch url options])).
Proof.
  intros Hfetch Ho.
  rewrite (requestJSON_stops fetch url (Some options) None 0 st lg [] o).
  - simpl. rewrite Hfetch. cbn [snd]. f_equal.
    destruct o as [res|e]; [|done]. destruct (Ho res eq_refl) as [Hr Hok].
    unfold settlement. by rewrite Hr, Hok.
  - done.
  - simpl. by rewrite Hfetch.
  - done.
  - intros res -> Hr. destruct (Ho res eq_refl). congruence.
Qed.

(** X9. [findAllByField] reads one page: when the store answers the
    lookup at the first attempt, the lookup is the only network call, a
    GET with the repository's headers, and the result is the [records]
    member of the reply, or an empty array when the member is missing
    or falsy; a reply that is [null] makes the call reject with a
    [TypeError]. *)
Theorem findAllByField_single_page table field v st lg lookup st' :
  serves st [lookup_request table field v] [lookup] st' ->
  let run := findAllByField fetch env table field v (mkWorld st lg) in
  run.1 = match get lookup "records" with
          | Some found => Resolved (if truthy found then found else VArr [])
          | None => Rejected TypeError
          end
  /\ log run.2 = lg ++ [Fetch (lookup_request table field v).1
                              (mkOptions None (Some (HEADERS env)) None)]
  /\ calls (log run.2) = (calls lg + 1)%nat
  /\ sleeps (log run.2) = sleeps lg.
Proof.
  intros Hsrv run.
  inversion Hsrv as [|? url options res st1 reply requests replies ?
                       Hfetch Hr Hok Hjson Hrest]; subst.
  inversion Hrest; subst.
  assert (Hrun : run
            = (match get lookup "records" with
               | Some found => Resolved (if truthy found then found else VArr [])
               | None => Rejected TypeError
               end,
               mkWorld st' (lg ++ [Fetch (lookup_request table field v).1
                                         (mkOptions None (Some (HEADERS env)) None)]))).
  { unfold run, findAllByField, bind.
    rewrite (requestJSON_served _ _ _ _ _ _ _ _ Hfetch Hr Hok Hjson).
    unfold records_or_empty, bind, checked.
    by destruct (get lookup "records"). }
  rewrite Hrun. cbn [fst snd log]. split_and!; [done|done| |].
  - by rewrite calls_app.
  - rewrite sleeps_app. apply app_nil_r.
Qed.

(** X10. [findOneByField], on a lookup the store answers with the
    array [all] of matches: without a match it resolves with [null];
    with more than one match under strict duplicates it rejects with
    the error that names the table, the field, the value and the number
    of matches; otherwise it resolves with the first match, also when
    there are several and strict duplicates is off.  One network call
    in every case. *)
Theorem findOneByField_cases table field v st lg lookup all st' :
  serves st [lookup_request table field v] [lookup] st' ->
  get lookup "records" = Some (VArr all) ->
  let run := findOneByField fetch env table field v (mkWorld st lg) in
  log run.2 = lg ++ [Fetch (lookup_request table field v).1
                           (lookup_request table field v).2]
  /\ (all = [] -> run.1 = Resolved VNull)
  /\ ((1 < length all)%nat -> strictDuplicates (cfg env) = true ->
      run.1 = Rejected (Error ("Duplicate " +:+ table +:+ " where " +:+ field +:+ "="
                               +:+ dquote +:+ to_String v +:+ dquote +:+ " ("
                               +:+ pretty (length all) +:+ " found)")))
  /\ (forall first others,
        all = first :: others ->
        others = [] \/ strictDuplicates (cfg env) = false ->
        run.1 = Resolved (if truthy first then first else VNull)).
Proof.
  intros Hsrv Hfound run.
  pose proof (findOneByField_served fetch env table field v st lg lookup
                (VArr all) st' Hsrv Hfound) as Hrun.
  cbn zeta in Hrun. fold run in Hrun.
  change (indexed (or_else (VArr all) (VArr []))) with all in Hrun.
  split_and!.
  - rewrite Hrun. by destruct ((1 <? length all)%nat && strictDuplicates (cfg env)).
  - intros ->. by rewrite Hrun.
  - intros Hmany Hstrict. apply Nat.ltb_lt in Hmany.
    by rewrite Hrun, Hmany, Hstrict.
  - intros first others -> Hone. rewrite Hrun.
    assert (Hguard : (1 <? length (first :: others))%nat
                     && strictDuplicates (cfg env) = false).
    { destruct Hone as [->| ->]; [done|apply andb_false_r]. }
    by rewrite Hguard.
Qed.

Lemma methods_app (l1 l2 : list Event) : methods (l1 ++ l2) = methods l1 ++ methods l2.
Proof. unfold methods. apply omap_app. Qed.

Lemma methods_batches meth table d (groups : list (list value)) :
  methods (flat_map (fun rq => [Fetch rq.1 rq.2; Sleep d])
             (batch_request meth table <$> groups))
  = replicate (length groups) (Some meth).
Proof.
  induction groups as [|group groups IH]; [done|].
  rewrite fmap_cons. cbn [flat_map]. rewrite methods_app, IH. done.
Qed.

(** X11. [updateMany] follows the discipline of [createMany] with the
    PATCH method: [ceil(n / 10)] batches of at most 10 records in input
    order, one PATCH per batch when the store serves each at the first
    attempt, the polite delay of 120 ms after every batch, and the
    records of the replies in batch order. *)
Theorem updateMany_batches table records st lg replies recss st' :
  let requests := batch_request "PATCH" table <$> chunk records 10 in
  serves st requests replies st' ->
  Forall2 (fun reply recs => reply_records reply = Some recs) replies recss ->
  let run := updateMany fetch JSON_stringify env table records (mkWorld st lg) in
  run = (Resolved (VArr (concat recss)),
         mkWorld st' (lg ++ flat_map (fun rq => [Fetch rq.1 rq.2; Sleep 120]) requests))
  /\ length requests = ceil_div (length records) 10
  /\ concat (chunk records 10) = records
  /\ methods (log run.2) = methods lg ++ replicate (ceil_div (length records) 10) (Some "PATCH")
  /\ sleeps (log run.2) = sleeps lg ++ replicate (ceil_div (length records) 10) 120.
Proof.
  intros requests Hsrv Hrecs run.
  assert (Hlen : length requests = ceil_div (length records) 10).
  { unfold requests. by rewrite length_fmap, chunk_length. }
  assert (Hrun : run = (Resolved (VArr (concat recss)),
            mkWorld st' (lg ++ flat_map (fun rq => [Fetch rq.1 rq.2; Sleep 120]) requests))).
  { unfold run, updateMany, bind.
    change (batchSize (cfg env)) with 10%nat.
    by rewrite (send_groups_served fetch JSON_stringify env "PATCH" table
                  (chunk records 10) st lg [] replies recss st' Hsrv Hrecs). }
  destruct (chunk_groups 10 ltac:(lia) records) as [_ Hcat].
  rewrite Hrun. cbn [snd log]. split_and!; [done|done|done| |].
  - rewrite methods_app, <- Hlen. unfold requests.
    by rewrite methods_batches, length_fmap.
  - by rewrite sleeps_app, sleeps_batches, Hlen.
Qed.

(** The batches served ahead of the others. *)
Lemma send_groups_app meth table sent rest :
  forall st lg out replies recss st1,
    serves st (batch_request meth table <$> sent) replies st1 ->
    Forall2 (fun reply recs => reply_records reply = Some recs) replies recss ->
    send_groups meth table (sent ++ rest) out (mkWorld st lg)
    = send_groups meth table rest (out ++ concat recss)
        (mkWorld st1
           (lg ++ flat_map (fun rq => [Fetch rq.1 rq.2; Sleep (politeDelayMs (cfg env))])
                           (batch_request meth table <$> sent))).
Proof.
  induction sent as [|group sent IH]; intros st lg out replies recss st1 Hsrv Hrecs.
  - inversion Hsrv; subst. inversion Hrecs; subst.
    simpl. by rewrite !app_nil_r.
  - rewrite fmap_cons in Hsrv.
    inversion Hsrv as [|? url options res st2 reply requests replies' ?
                         Hfetch Hr Hok Hjson Hrest]; subst.
    inversion Hrecs as [|? recs ? recss' Hrec Hrecs']; subst.
    change ((group :: sent) ++ rest) with (group :: (sent ++ rest)).
    cbn [Repo.send_groups]. unfold bind at 1.
    rewrite (requestJSON_served _ _ _ _ _ _ _ _ Hfetch Hr Hok Hjson).
    rewrite (read_records reply recs _ _ Hrec).
    unfold bind at 1, sleep. cbn [server log].
    rewrite (IH st2 _ (out ++ recs) replies' recss' st1 Hrest Hrecs').
    rewrite fmap_cons. simpl concat. simpl flat_map.
    by rewrite <- !app_assoc.
Qed.

(** X12. When the store refuses a batch of [createMany] with a client
    error or a transport failure, the operation rejects with that
    error: the batches before it have been sent and are not undone,
    their records are not returned, the refused request is the last
    event of the run, with no polite delay after it, and the batches
    after it are never sent. *)
Theorem createMany_stops_at_refused_batch table records sent refused_group unsent
    st lg replies recss st1 o st2 :
  chunk records 10 = sent ++ refused_group :: unsent ->
  serves st (batch_request "POST" table <$> sent) replies st1 ->
  Forall2 (fun reply recs => reply_records reply = Some recs) replies recss ->
  fetch (batch_request "POST" table refused_group).1
        (batch_request "POST" table refused_group).2 st1 = (o, st2) ->
  refused o ->
  let run := createMany fetch JSON_stringify env table records (mkWorld st lg) in
  run = (Rejected (refusal o),
         mkWorld st2
           (lg ++ flat_map (fun rq => [Fetch rq.1 rq.2; Sleep 120])
                           (batch_request "POST" table <$> sent)
               ++ [Fetch (batch_request "POST" table refused_group).1
                         (batch_request "POST" table refused_group).2]))
  /\ calls (log run.2) = (calls lg + length sent + 1)%nat
  /\ sleeps (log run.2) = sleeps lg ++ replicate (length sent) 120.
Proof.
  intros Hchunk Hsrv Hrecs Hfetch Ho run.
  assert (Hrun : run = (Rejected (refusal o),
         mkWorld st2
           (lg ++ flat_map (fun rq => [Fetch rq.1 rq.2; Sleep 120])
                           (batch_request "POST" table <$> sent)
               ++ [Fetch (batch_request "POST" table refused_group).1
                         (batch_request "POST" table refused_group).2]))).
  { unfold run, createMany, bind.
    change (batchSize (cfg env)) with 10%nat. rewrite Hchunk.
    rewrite (send_groups_app "POST" table sent (refused_group :: unsent)
               st lg [] replies recss st1 Hsrv Hrecs).
    cbn [Repo.send_groups]. unfold bind at 1.
    rewrite (requestJSON_refused _ _ _ _ _ _ Hfetch Ho).
    by rewrite <- app_assoc. }
  rewrite Hrun. cbn [snd log]. split_and!; [done| |].
  - rewrite !calls_app, calls_batches, length_fmap.
    change (calls [Fetch (batch_request "POST" table refused_group).1
                         (batch_request "POST" table refused_group).2])
      with 1%nat.
    lia.
  - rewrite !sleeps_app, sleeps_batches, length_fmap.
    change (sleeps [Fetch (batch_request "POST" table refused_group).1
                          (batch_request "POST" table refused_group).2])
      with (@nil Z).
    by rewrite app_nil_r.
Qed.

(** A request the store delivers after [k] retried attempts. *)
Lemma requestJSON_delivered url options (k : nat) st lg rs res reply :
  (k <= 5)%nat ->
  answers fetch url options (S k) st = (Resolved <$> rs) ++ [Resolved res] ->
  Forall (fun r => retryable r = true) rs ->
  retryable res = false ->
  ok res = true ->
  json res = Resolved reply ->
  requestJSON fetch url (Some options) None (mkWorld st lg)
  = (Resolved reply,
     mkWorld (state_after fetch url options (S k) st)
       (lg ++ backoff_trace url options 400 0 k ++ [Fetch url options])).
Proof.
  intros Hk Hans Hretry Hr Hok Hjson.
  rewrite (requestJSON_stops fetch url (Some options) None k st lg rs (Resolved res)).
  - unfold settlement. rewrite Hr, Hok, Hjson. done.
  - change (retries_of None) with 5. lia.
  - exact Hans.
  - exact Hretry.
  - intros res' [= <-] Hr'. congruence.
Qed.

Lemma send_groups_delivered meth table groups :
  forall st lg out outcomes recss st',
    delivers st (batch_request meth table <$> groups) outcomes st' ->
    Forall2 (fun outcome recs => reply_records outcome.2 = Some recs) outcomes recss ->
    send_groups meth table groups out (mkWorld st lg)
    = (Resolved (out ++ concat recss),
       mkWorld st'
         (lg ++ retried_batches_trace (politeDelayMs (cfg env))
                  (zip (batch_request meth table <$> groups) outcomes))).
Proof.
  induction groups as [|group groups IH]; intros st lg out outcomes recss st' Hdel Hrecs.
  - inversion Hdel; subst. inversion Hrecs; subst.
    simpl. unfold ret. by rewrite !app_nil_r.
  - rewrite fmap_cons in Hdel.
    inversion Hdel as [|? url options k rs res reply requests outcomes' ?
                         Hk Hans Hretry Hr Hok Hjson Hrest]; subst.
    inversion Hrecs as [|? recs ? recss' Hrec Hrecs']; subst.
    cbn [Repo.send_groups]. unfold bind at 1.
    rewrite (requestJSON_delivered _ _ k _ _ rs res reply Hk Hans Hretry Hr Hok Hjson).
    rewrite (read_records reply recs _ _ Hrec).
    unfold bind at 1, sleep. cbn [server log].
    rewrite (IH _ _ (out ++ recs) outcomes' recss' st' Hrest Hrecs').
    rewrite fmap_cons. simpl concat.
    unfold retried_batches_trace. cbn [zip zip_with flat_map fst snd].
    by rewrite <- !app_assoc.
Qed.

Lemma calls_retried_batches d sent :
  calls (retried_batches_trace d sent)
  = sum_list ((fun s : (string * Options) * (nat * value) => S s.2.1) <$> sent).
Proof.
  induction sent as [|[rq [k reply]] sent IH]; [done|].
  unfold retried_batches_trace in *. cbn [flat_map fmap list_fmap sum_list sum_list_with].
  rewrite !calls_app, calls_backoff_trace, IH.
  change (calls [Fetch rq.1 rq.2; Sleep d]) with 1%nat. simpl. lia.
Qed.

Lemma total_wait_retried_batches d sent :
  total_wait (retried_batches_trace d sent)
  = foldr Z.add 0
      ((fun s : (string * Options) * (nat * value) =>
          400 * (2 ^ Z.of_nat s.2.1 - 1) + d) <$> sent).
Proof.
  induction sent as [|[rq [k reply]] sent IH]; [done|].
  unfold retried_batches_trace in *. cbn [flat_map fmap list_fmap foldr].
  rewrite !total_wait_app, total_wait_backoff_trace, IH.
  change (total_wait [Fetch rq.1 rq.2; Sleep d]) with (d + 0). simpl. lia.
Qed.

(** X13. [createMany] through a rate-limiting store: when every batch
    is answered with a success after [k] retryable answers, [k] at most
    5, the operation resolves with the same records as if each batch
    had been served at once.  Batch by batch the log holds the [k]
    retried calls with their waits of [400 * 2^i] ms, the successful
    call and the polite delay: [k + 1] calls and
    [400 * (2^k - 1) + 120] ms of wait for the batch. *)
Theorem createMany_through_retries table records st lg outcomes recss st' :
  let requests := batch_request "POST" table <$> chunk records 10 in
  delivers st requests outcomes st' ->
  Forall2 (fun outcome recs => reply_records outcome.2 = Some recs) outcomes recss ->
  let run := createMany fetch JSON_stringify env table records (mkWorld st lg) in
  run = (Resolved (VArr (concat recss)),
         mkWorld st' (lg ++ retried_batches_trace 120 (zip requests outcomes)))
  /\ length outcomes = ceil_div (length records) 10
  /\ calls (log run.2)
     = (calls lg + sum_list ((fun outcome : nat * value => S outcome.1) <$> outcomes))%nat
  /\ total_wait (log run.2)
     = total_wait lg
       + foldr Z.add 0
           ((fun outcome : nat * value => 400 * (2 ^ Z.of_nat outcome.1 - 1) + 120)
              <$> outcomes).
Proof.
  intros requests Hdel Hrecs run.
  assert (Hlen : length outcomes = length requests).
  { clear Hrecs run. revert Hdel. generalize requests. clear requests.
    intros requests Hdel. induction Hdel; simpl; congruence. }
  assert (Hrun : run = (Resolved (VArr (concat recss)),
            mkWorld st' (lg ++ retried_batches_trace 120 (zip requests outcomes)))).
  { unfold run, createMany, bind.
    change (batchSize (cfg env)) with 10%nat.
    by rewrite (send_groups_delivered "POST" table (chunk records 10) st lg []
                  outcomes recss st' Hdel Hrecs). }
  rewrite Hrun. cbn [snd log]. split_and!; [done| | |].
  - rewrite Hlen. unfold requests. by rewrite length_fmap, chunk_length.
  - rewrite calls_app, calls_retried_batches. f_equal.
    rewrite <- (snd_zip requests outcomes) at 2 by lia.
    by rewrite <- list_fmap_compose.
  - rewrite total_wait_app, total_wait_retried_batches. f_equal.
    rewrite <- (snd_zip requests outcomes) at 2 by lia.
    by rewrite <- list_fmap_compose.
Qed.

(** X14. Without a truthy key, [findRecordsByKeys] issues no network
    call and resolves with an empty mapping: no group is formed, so no
    [OR()] formula without a condition is ever sent. *)
Theorem findRecordsByKeys_no_truthy_key table keyField keys (w : World St) :
  Forall (fun k => truthy k = false) keys ->
  findRecordsByKeys fetch env table keyField keys w = (Resolved ∅, w).
Proof.
  intros Hall. unfold findRecordsByKeys.
  assert (Hnone : List.filter truthy keys = []).
  { induction Hall as [|k keys Hk _ IH]; [done|]. simpl. by rewrite Hk. }
  rewrite Hnone. simpl fmap. by rewrite chunk_nil.
Qed.

(** X15. [upsertByKey] writes nothing when the lookup is refused: a
    client error or a transport failure on the lookup is the rejection
    of the operation, and the lookup, a GET, is its only network
    call. *)
Theorem upsertByKey_lookup_refused table keyField fields keyVal st lg o st1 :
  get fields keyField = Some keyVal ->
  truthy keyVal = true ->
  fetch (lookup_request table keyField keyVal).1
        (lookup_request table keyField keyVal).2 st = (o, st1) ->
  refused o ->
  let run := upsertByKey fetch JSON_stringify env table keyField fields (mkWorld st lg) in
  run = (Rejected (refusal o),
         mkWorld st1 (lg ++ [Fetch (lookup_request table keyField keyVal).1
                                   (lookup_request table keyField keyVal).2]))
  /\ methods (log run.2) = methods lg ++ [None].
Proof.
  intros Hkey Htruthy Hfetch Ho run.
  assert (Hrun : run = (Rejected (refusal o),
         mkWorld st1 (lg ++ [Fetch (lookup_request table keyField keyVal).1
                                   (lookup_request table keyField keyVal).2]))).
  { unfold run, upsertByKey, bind at 1, checked. rewrite Hkey. simpl.
    rewrite Htruthy. simpl.
    unfold bind at 1, findOneByField, bind at 1, findAllByField, bind at 1.
    by rewrite (requestJSON_refused _ _ _ _ _ _ Hfetch Ho). }
  rewrite Hrun. cbn [snd log]. split; [done|].
  by rewrite methods_app.
Qed.

End RepoMore.

(** * The pool of tasks *)

Section PoolFacts.

Import Pool.

Context {T : Type}.
Variable throws_at_once : T -> bool.

#[local] Abbreviation next_from := (next_from throws_at_once).
#[local] Abbreviation _next := (_next throws_at_once).
#[local] Abbreviation step := (step throws_at_once).
#[local] Abbreviation exec := (exec throws_at_once).
#[local] Abbreviation create := (@create T).

(** What the loop of [_next] keeps and reaches. *)
Lemma next_from_spec queue :
  forall lim act run_ started_,
    let s := next_from queue lim act run_ started_ in
    limit s = lim
    /\ started s ++ q s = started_ ++ queue
    /\ active s - Z.of_nat (length (running s)) = act - Z.of_nat (length run_)
    /\ act <= active s
    /\ active s <= Z.max act lim
    /\ (q s <> [] -> lim <= active s).
Proof.
  induction queue as [|fn rest IH]; intros lim act run_ started_.
  - simpl. split_and!; [done|done|done|lia|lia|done].
  - cbn [Pool.next_from].
    destruct (Z.ltb_spec act lim) as [Hlt|Hge].
    + destruct (throws_at_once fn).
      * destruct (IH lim act run_ (started_ ++ [fn]))
          as (Hlim & Hfifo & Hrun & Hle & Hmax & Hfull).
        split_and!; [done| |done|done|done|done].
        rewrite Hfifo. by rewrite <- app_assoc.
      * destruct (IH lim (act + 1) (run_ ++ [fn]) (started_ ++ [fn]))
          as (Hlim & Hfifo & Hrun & Hle & Hmax & Hfull).
        split_and!; [done| | |lia|lia|done].
        -- rewrite Hfifo. by rewrite <- app_assoc.
        -- rewrite Hrun, length_app. simpl. lia.
    + simpl. split_and!; [done|done|done|lia|lia|intros _; lia].
Qed.

Lemma pool_inv_create lim : pool_inv (default 3 lim) (create lim).
Proof. unfold pool_inv, create. simpl. split_and!; [done|done|lia|done]. Qed.

Lemma pool_inv_step lim s o : pool_inv lim s -> pool_inv lim (step s o).
Proof.
  intros (Hlim & Hact & Hmax & Hfull). destruct o as [fn|i]; simpl.
  - unfold run, Pool._next. cbn [limit active q running started].
    destruct (next_from_spec (q s ++ [fn]) (limit s) (active s) (running s) (started s))
      as (Hlim' & _ & Hrun & Hle & Hmax' & Hfull').
    unfold pool_inv. rewrite Hlim in *. split_and!; [done|lia|lia|done].
  - unfold settle_at. destruct (running s !! i) as [fn|] eqn:Hi; [|done].
    unfold Pool._next. cbn [limit active q running started].
    destruct (next_from_spec (q s) (limit s) (active s - 1) (delete i (running s))
                (started s))
      as (Hlim' & _ & Hrun & Hle & Hmax' & Hfull').
    assert (Hlen : length (delete i (running s)) = (length (running s) - 1)%nat)
      by (apply length_delete; eauto).
    assert (Hpos : (0 < length (running s))%nat)
      by (apply lookup_lt_Some in Hi; lia).
    unfold pool_inv. rewrite Hlim in *. split_and!; [done|lia|lia|done].
Qed.

Lemma pool_inv_exec lim ops : forall s, pool_inv lim s -> pool_inv lim (exec ops s).
Proof.
  induction ops as [|o ops IH]; intros s Hs; [done|].
  apply IH. by apply pool_inv_step.
Qed.

Lemma step_fifo s o :
  started (step s o) ++ q (step s o)
  = started s ++ q s ++ match o with Run fn => [fn] | Settle _ => [] end.
Proof.
  destruct o as [fn|i]; simpl.
  - unfold run, Pool._next. cbn [limit active q running started].
    by destruct (next_from_spec (q s ++ [fn]) (limit s) (active s) (running s) (started s))
      as (_ & -> & _).
  - unfold settle_at. destruct (running s !! i); [|by rewrite app_nil_r].
    unfold Pool._next. cbn [limit active q running started].
    destruct (next_from_spec (q s) (limit s) (active s - 1) (delete i (running s))
                (started s)) as (_ & -> & _).
    by rewrite app_nil_r.
Qed.

Lemma exec_fifo ops :
  forall s, started (exec ops s) ++ q (exec ops s) = started s ++ q s ++ submitted ops.
Proof.
  induction ops as [|o ops IH]; intros s.
  - simpl. by rewrite app_nil_r.
  - change (exec (o :: ops) s) with (exec ops (step s o)).
    rewrite IH, (app_assoc (started (step s o))), step_fifo, <- !app_assoc.
    by destruct o.
Qed.

(** X16. Whatever is handed to a pool and whenever the tasks settle,
    the counter [active] is the number of tasks suspended on their
    function, and it never exceeds the limit (never leaves 0 when the
    limit is not positive). *)
Theorem pool_bounded lim (ops : list (op (T := T))) :
  let s := exec ops (create lim) in
  active s = Z.of_nat (length (running s))
  /\ 0 <= active s <= Z.max 0 (default 3 lim)
  /\ limit s = default 3 lim.
Proof.
  intros s.
  destruct (pool_inv_exec (default 3 lim) ops (create lim) (pool_inv_create lim))
    as (Hlim & Hact & Hmax & _).
  fold s in Hlim, Hact, Hmax. split_and!; [done|lia|lia|done].
Qed.

(** X17. A function waits in the queue only while the pool is full:
    whenever the queue is not empty, [active] is at the limit (at 0 for
    a limit that is not positive), so with a positive limit a pool with
    no suspended task has an empty queue. *)
Theorem pool_work_conserving lim (ops : list (op (T := T))) :
  let s := exec ops (create lim) in
  q s <> [] ->
  active s = Z.max 0 (default 3 lim)
  /\ (0 < default 3 lim -> running s <> []).
Proof.
  intros s Hq.
  destruct (pool_inv_exec (default 3 lim) ops (create lim) (pool_inv_create lim))
    as (Hlim & Hact & Hmax & Hfull).
  fold s in Hlim, Hact, Hmax, Hfull. specialize (Hfull Hq).
  split; [lia|].
  intros Hpos Hnone. rewrite Hnone in Hact. simpl in Hact. lia.
Qed.

(** X18. The pool calls the functions in the order they were handed to
    [run], each at most once: the functions called so far followed by
    the queue are the functions submitted, in order. *)
Theorem pool_fifo lim (ops : list (op (T := T))) :
  let s := exec ops (create lim) in
  started s ++ q s = submitted ops.
Proof. intros s. unfold s. by rewrite exec_fifo. Qed.

Lemma next_from_closed queue lim act run_ started_ :
  lim <= act -> next_from queue lim act run_ started_ = mkState lim act queue run_ started_.
Proof.
  intros Hle. destruct queue as [|fn rest]; [done|]. cbn [Pool.next_from].
  destruct (Z.ltb_spec act lim); [lia|done].
Qed.

(** X19. A pool whose limit is zero or negative never calls a function:
    everything handed to [run] stays in the queue, in order, whatever
    settles. *)
Theorem pool_never_starts lim (ops : list (op (T := T))) :
  default 3 lim <= 0 ->
  let s := exec ops (create lim) in
  started s = [] /\ running s = [] /\ q s = submitted ops /\ active s = 0.
Proof.
  intros Hlim s.
  assert (Hgen : forall ops' s0,
             limit s0 = default 3 lim -> active s0 = 0 -> running s0 = [] ->
             started s0 = [] ->
             let s' := exec ops' s0 in
             started s' = [] /\ running s' = [] /\ q s' = q s0 ++ submitted ops'
             /\ active s' = 0).
  { clear s ops. induction ops' as [|o ops' IH]; intros s0 Hl Ha Hr Hs.
    - simpl. by rewrite app_nil_r.
    - change (exec (o :: ops') s0) with (exec ops' (step s0 o)).
      assert (Hstep : step s0 o
                = mkState (default 3 lim) 0
                    (q s0 ++ match o with Run fn => [fn] | Settle _ => [] end) [] []).
      { destruct o as [fn|i]; simpl.
        - unfold run, Pool._next. cbn [limit active q running started].
          rewrite Hl, Ha, Hr, Hs. apply next_from_closed. lia.
        - unfold settle_at. rewrite Hr. simpl. rewrite app_nil_r.
          destruct s0; simpl in *; by subst. }
      rewrite Hstep.
      destruct (IH (mkState (default 3 lim) 0
                      (q s0 ++ match o with Run fn => [fn] | Settle _ => [] end) [] []))
        as (H1 & H2 & H3 & H4); [done..|].
      cbn zeta in *. cbn [q] in H3.
      split_and!; [done|done| |done].
      rewrite H3, <- app_assoc. by destruct o. }
  destruct (Hgen ops (create lim)) as (H1 & H2 & H3 & H4); [done..|].
  done.
Qed.

(** X20. When a suspended task settles while a function waits, the
    freed slot goes to the oldest waiting function: it is the next one
    called, and the queue moves up with no other change of order. *)
Theorem pool_hands_over lim (ops : list (op (T := T))) i task fn rest :
  let s := exec ops (create lim) in
  running s !! i = Some task ->
  q s = fn :: rest ->
  let s' := step s (Settle i) in
  exists more,
    started s' = started s ++ fn :: more
    /\ more ++ q s' = rest
    /\ (throws_at_once fn = false -> more = [] /\ active s' = active s).
Proof.
  intros s Hi Hq s'.
  destruct (pool_inv_exec (default 3 lim) ops (create lim) (pool_inv_create lim))
    as (Hlim & Hact & Hmax & Hfull).
  fold s in Hlim, Hact, Hmax, Hfull.
  assert (Hne : q s <> []) by (by rewrite Hq).
  specialize (Hfull Hne).
  assert (Hpos : (0 < length (running s))%nat)
    by (apply lookup_lt_Some in Hi; lia).
  unfold s'. cbn [Pool.step]. unfold settle_at. rewrite Hi.
  unfold Pool._next. cbn [limit active q running started]. rewrite Hq.
  cbn [Pool.next_from].
  destruct (Z.ltb_spec (active s - 1) (limit s)) as [_|Hge]; [|lia].
  destruct (throws_at_once fn) eqn:Hthrow.
  - destruct (next_from_spec rest (limit s) (active s - 1) (delete i (running s))
                (started s ++ [fn])) as (_ & Hfifo & _).
    set (s2 := next_from rest (limit s) (active s - 1) (delete i (running s))
                 (started s ++ [fn])) in *.
    assert (Hpre : exists more, started s2 = (started s ++ [fn]) ++ more
                                /\ more ++ q s2 = rest).
    { apply (f_equal (drop (length (started s ++ [fn])))) in Hfifo as Hdrop.
      rewrite drop_app_length in Hdrop.
      assert (Hlen : (length (started s ++ [fn]) <= length (started s2))%nat).
      { clear -throws_at_once. unfold s2.
        generalize (limit s) (active s - 1) (delete i (running s)) (started s ++ [fn]).
        induction rest as [|g rest IH]; intros l a r st; [done|].
        cbn [Pool.next_from]. destruct (a <? l); [|done].
        destruct (throws_at_once g).
        - etrans; [|apply IH]. rewrite length_app. lia.
        - etrans; [|apply IH]. rewrite length_app. lia. }
      exists (drop (length (started s ++ [fn])) (started s2)). split.
      - apply (f_equal (take (length (started s ++ [fn])))) in Hfifo.
        rewrite take_app_length, take_app_le in Hfifo by done.
        rewrite <- Hfifo at 1. by rewrite take_drop.
      - rewrite drop_app_le in Hdrop by done. done. }
    destruct Hpre as (more & Hstarted & Hrest).
    exists more. rewrite Hstarted, <- app_assoc. split_and!; [done|done|done].
  - assert (Hfull' : limit s <= active s - 1 + 1) by lia.
    rewrite (next_from_closed rest _ _ _ _ Hfull').
    exists []. cbn [started q active]. split_and!; [done|done|].
    intros _. split; [done|lia].
Qed.

End PoolFacts.

(** * Validation and mapping of a lead *)

Section LeadFacts.

Import Validate Mapping.

Variable JSON_stringify : value -> string.

#[local] Abbreviation mapLeadFields := (mapLeadFields JSON_stringify).

(** What [validateBiz] has checked when it returns. *)
Lemma validateBiz_None_inv (biz : value) :
  validateBiz biz = None ->
  exists props,
    biz = VObj props
    /\ truthy (get_opt biz "placeId") = true
    /\ truthy (get_opt biz "title") = true.
Proof.
  destruct biz as [| |b|n|s|items|props]; try done.
  - simpl. by destruct b.
  - unfold validateBiz. simpl. by destruct (negb (n =? 0)).
  - unfold validateBiz. simpl. by destruct (negb (String.eqb s "")).
  - unfold validateBiz. cbn [truthy typeof negb orb String.eqb].
    change (String.eqb "object" "object") with true. cbn [negb].
    destruct (truthy (get_opt (VObj props) "placeId")) eqn:Hid; [|done].
    destruct (truthy (get_opt (VObj props) "title")) eqn:Htitle; [|done].
    intros _. by exists props.
Qed.

(** X21. [validateBiz] returns without an error exactly on an object
    whose [placeId] and [title] are truthy.  Otherwise it throws, and
    the first check that fails decides the message: [Invalid record]
    for anything that is not an object or an array, [Missing placeId]
    next, whatever the title, and [Missing title for placeId=<placeId>]
    last. *)
Theorem validateBiz_accepts (biz : value) :
  (validateBiz biz = None
   <-> exists props,
         biz = VObj props
         /\ truthy (get_opt biz "placeId") = true
         /\ truthy (get_opt biz "title") = true)
  /\ (isArray biz = false -> (forall props, biz <> VObj props) ->
      validateBiz biz = Some (Error "Invalid record"))
  /\ (forall props, biz = VObj props -> truthy (get_opt biz "placeId") = false ->
      validateBiz biz = Some (Error "Missing placeId"))
  /\ (isArray biz = true -> validateBiz biz = Some (Error "Missing placeId"))
  /\ (forall props, biz = VObj props -> truthy (get_opt biz "placeId") = true ->
      truthy (get_opt biz "title") = false ->
      validateBiz biz
      = Some (Error ("Missing title for placeId=" +:+ to_String (get_opt biz "placeId")))).
Proof.
  split_and!.
  - split.
    + apply validateBiz_None_inv.
    + intros (props & -> & Hid & Htitle). unfold validateBiz.
      change (negb (truthy (VObj props))
              || negb (String.eqb (typeof (VObj props)) "object")) with false.
      by rewrite Hid, Htitle.
  - intros Harr Hobj. destruct biz as [| |b|n|s|items|props]; try done.
    + by destruct b.
    + unfold validateBiz. simpl. by destruct (negb (n =? 0)).
    + unfold validateBiz. simpl. by destruct (negb (String.eqb s "")).
    + by destruct (Hobj props).
  - intros props -> Hid. unfold validateBiz.
    change (negb (truthy (VObj props))
            || negb (String.eqb (typeof (VObj props)) "object")) with false.
    by rewrite Hid.
  - intros Harr. destruct biz; try done.
  - intros props -> Hid Htitle. unfold validateBiz.
    change (negb (truthy (VObj props))
            || negb (String.eqb (typeof (VObj props)) "object")) with false.
    by rewrite Hid, Htitle.
Qed.



Lemma nullish_or_truthy v d : truthy v = true -> nullish_or v d = v.
Proof. by destruct v. Qed.








(** X23. A record that [validateBiz] accepts keeps its key through
    [mapLeadFields]: the mapped [placeId] is the record's own and is
    truthy, under the key field of the leads table, and the mapped
    [companyName] is the record's title, truthy as well. *)
Theorem validated_lead_keeps_key (biz fields : value) :
  validateBiz biz = None ->
  mapLeadFields biz = Some fields ->
  get fields leads_keyField = Some (get_opt biz "placeId")
  /\ truthy (get_opt biz "placeId") = true
  /\ get fields "companyName" = Some (get_opt biz "title")
  /\ truthy (get_opt biz "title") = true.
Proof.
  intros Hvalid Hmap.
  destruct (validateBiz_None_inv biz Hvalid) as (props & -> & Hid & Htitle).
  unfold Mapping.mapLeadFields in Hmap.
  change (get (VObj props) "placeId") with (Some (get_opt (VObj props) "placeId")) in Hmap.
  simpl mbind in Hmap.
  destruct (hoursToLine (get_opt (VObj props) "openingHours")) as [line|]; [|done].
  simpl in Hmap. injection Hmap as <-.
  split_and!; [|done| |done].
  - change (Some (nullish_or (get_opt (VObj props) "placeId") VNull)
            = Some (get_opt (VObj props) "placeId")).
    by rewrite nullish_or_truthy.
  - change (Some (nullish_or (get_opt (VObj props) "title") VNull)
            = Some (get_opt (VObj props) "title")).
    by rewrite nullish_or_truthy.
Qed.

End LeadFacts.

(** * Scenarios of the further properties *)

Lemma requestJSON_call_bound_witness :
  let run := requestJSON (Mock.always (Resolved server_error)) url None None start in
  (calls (log start) < calls (log run.2))%nat
  /\ (calls (log run.2) <= calls (log start) + 6)%nat
  /\ (length (sleeps (log run.2)) + calls (log start) + 1
      = length (sleeps (log start)) + calls (log run.2))%nat.
Proof.
  apply (requestJSON_call_bound (Mock.always (Resolved server_error)) url None None start).
  vm_compute. discriminate.
Defined.

Lemma requestJSON_without_attempts_witness :
  requestJSON (Mock.always (Resolved success_response)) url None
    (Some (mkRetryConfig (Some (-2)) None)) start
  = (Resolved VUndefined, start).
Proof.
  apply (requestJSON_without_attempts (Mock.always (Resolved success_response)) url None
           (Some (mkRetryConfig (Some (-2)) None)) start).
  reflexivity.
Defined.

(** "should handle JSON parsing errors", here after one retried
    attempt. *)
Lemma requestJSON_parse_failure_witness :
  let run := requestJSON (Mock.scripted [Resolved server_error] (Resolved unparsable))
               url None (quick 5) start in
  run.1 = Rejected (Error "Invalid JSON")
  /\ log run.2 = [Fetch url no_options; Sleep 10; Fetch url no_options]
  /\ calls (log run.2) = 2%nat.
Proof.
  apply (requestJSON_parse_failure
           (Mock.scripted [Resolved server_error] (Resolved unparsable))
           url None (quick 5) 1 0%nat [] [server_error] unparsable (Error "Invalid JSON")).
  - vm_compute. discriminate.
  - reflexivity.
  - repeat constructor.
  - reflexivity.
  - reflexivity.
  - reflexivity.
Defined.

Lemma requestJSON_wait_bound_witness :
  let run := requestJSON (Mock.always (Resolved server_error)) url None None start in
  total_wait (log start) <= total_wait (log run.2)
  /\ total_wait (log run.2) <= total_wait (log start) + 400 * (2 ^ 5 - 1).
Proof.
  apply (requestJSON_wait_bound (Mock.always (Resolved server_error)) url None None start).
  - vm_compute. discriminate.
  - vm_compute. discriminate.
Defined.


Lemma requestJSON_late_client_error_witness :
  let run := requestJSON (Mock.scripted [Resolved server_error] (Resolved not_found))
               url None (quick 5) start in
  run.1 = Rejected (Error "HTTP 404: Not Found")
  /\ log run.2 = [Fetch url no_options; Sleep 10; Fetch url no_options]
  /\ calls (log run.2) = 2%nat.
Proof.
  apply (requestJSON_late_client_error
           (Mock.scripted [Resolved server_error] (Resolved not_found))
           url None (quick 5) 1 0%nat [] [server_error] not_found).
  - vm_compute. discriminate.
  - reflexivity.
  - repeat constructor.
  - reflexivity.
  - reflexivity.
Defined.

Lemma chunk_partition_witness :
  let groups := chunk [1; 2; 3; 4; 5; 6; 7] 3 in
  concat groups = [1; 2; 3; 4; 5; 6; 7]
  /\ length groups = ceil_div 7 3
  /\ Forall (fun group => (0 < length group <= 3)%nat) groups
  /\ (forall i group,
        groups !! i = Some group ->
        group = take 3 (drop (i * 3) [1; 2; 3; 4; 5; 6; 7])
        /\ ((S i < length groups)%nat -> length group = 3%nat)).
Proof. apply (chunk_partition [1; 2; 3; 4; 5; 6; 7] 3). lia. Defined.

Lemma findAllByField_single_page_witness :
  let run := findAllByField holds_one env0 "leads" "placeId" (VStr "p1") start in
  run.1 = Resolved (VArr [stored "rec1" "p1"])
  /\ log run.2 = [Fetch (lookup_request env0 "leads" "placeId" (VStr "p1")).1
                        (mkOptions None (Some (HEADERS env0)) None)]
  /\ calls (log run.2) = 1%nat
  /\ sleeps (log run.2) = [].
Proof.
  apply (findAllByField_single_page holds_one env0 "leads" "placeId" (VStr "p1")
           0%nat [] (listing [stored "rec1" "p1"]) 1%nat).
  serve_all.
Defined.

Lemma findOneByField_cases_witness :
  let run := findOneByField holds_two env0 "leads" "placeId" (VStr "p1") start in
  let all := [stored "rec1" "p1"; stored "rec7" "p1"] in
  log run.2 = [Fetch (lookup_request env0 "leads" "placeId" (VStr "p1")).1
                     (lookup_request env0 "leads" "placeId" (VStr "p1")).2]
  /\ (all = [] -> run.1 = Resolved VNull)
  /\ ((1 < length all)%nat -> strictDuplicates (cfg env0) = true ->
      run.1 = Rejected (Error ("Duplicate leads where placeId=" +:+ dquote +:+ "p1"
                               +:+ dquote +:+ " (2 found)")))
  /\ (forall first others,
        all = first :: others ->
        others = [] \/ strictDuplicates (cfg env0) = false ->
        run.1 = Resolved (if truthy first then first else VNull)).
Proof.
  apply (findOneByField_cases holds_two env0 "leads" "placeId" (VStr "p1") 0%nat []
           (listing [stored "rec1" "p1"; stored "rec7" "p1"])
           [stored "rec1" "p1"; stored "rec7" "p1"] 1%nat).
  - serve_all.
  - reflexivity.
Defined.

Lemma updateMany_batches_witness :
  let requests := batch_request Mock.stringify env0 "PATCH" "leads" <$> chunk eleven 10 in
  let run := updateMany one_per_batch Mock.stringify env0 "leads" eleven start in
  run = (Resolved (VArr [stored "rec1" "p"; stored "rec1" "p"]),
         mkWorld 2%nat (flat_map (fun rq => [Fetch rq.1 rq.2; Sleep 120]) requests))
  /\ length requests = 2%nat
  /\ concat (chunk eleven 10) = eleven
  /\ methods (log run.2) = [Some "PATCH"; Some "PATCH"]
  /\ sleeps (log run.2) = [120; 120].
Proof.
  apply (updateMany_batches one_per_batch Mock.stringify env0 "leads" eleven
           0%nat [] [listing [stored "rec1" "p"]; listing [stored "rec1" "p"]]
           [[stored "rec1" "p"]; [stored "rec1" "p"]] 2%nat).
  - vm_compute. serve_all.
  - repeat constructor.
Defined.

Lemma createMany_stops_at_refused_batch_witness :
  let run := createMany refuses_second Mock.stringify env0 "leads" eleven start in
  run = (Rejected (Error "HTTP 404: Not Found"),
         mkWorld 2%nat
           (flat_map (fun rq => [Fetch rq.1 rq.2; Sleep 120])
                     (batch_request Mock.stringify env0 "POST" "leads" <$> [take 10 eleven])
            ++ [Fetch (batch_request Mock.stringify env0 "POST" "leads" (drop 10 eleven)).1
                      (batch_request Mock.stringify env0 "POST" "leads" (drop 10 eleven)).2]))
  /\ calls (log run.2) = 2%nat
  /\ sleeps (log run.2) = [120].
Proof.
  apply (createMany_stops_at_refused_batch refuses_second Mock.stringify env0 "leads"
           eleven [take 10 eleven] (drop 10 eleven) [] 0%nat []
           [listing [stored "rec1" "p"]] [[stored "rec1" "p"]] 1%nat
           (Resolved not_found) 2%nat).
  - reflexivity.
  - vm_compute. serve_all.
  - repeat constructor.
  - reflexivity.
  - intros res [= <-]. split; reflexivity.
Defined.

Lemma createMany_through_retries_witness :
  let requests := batch_request Mock.stringify env0 "POST" "leads" <$> chunk eleven 10 in
  let outcomes := [(1%nat, listing [stored "rec1" "p"]); (0%nat, listing [stored "rec1" "p"])] in
  let run := createMany limited_once Mock.stringify env0 "leads" eleven start in
  run = (Resolved (VArr [stored "rec1" "p"; stored "rec1" "p"]),
         mkWorld 3%nat (retried_batches_trace 120 (zip requests outcomes)))
  /\ length outcomes = 2%nat
  /\ calls (log run.2) = 3%nat
  /\ total_wait (log run.2) = 640.
Proof.
  apply (createMany_through_retries limited_once Mock.stringify env0 "leads" eleven
           0%nat []
           [(1%nat, listing [stored "rec1" "p"]); (0%nat, listing [stored "rec1" "p"])]
           [[stored "rec1" "p"]; [stored "rec1" "p"]] 3%nat).
  - vm_compute.
    eapply (delivers_cons _ _ _ _ 1 [rate_limited]);
      [lia|reflexivity|repeat constructor|reflexivity..|].
    eapply (delivers_cons _ _ _ _ 0 []);
      [lia|reflexivity|constructor|reflexivity..|].
    apply delivers_nil.
  - repeat constructor.
Defined.

Lemma findRecordsByKeys_no_truthy_key_witness :
  findRecordsByKeys holds_one env0 "leads" "placeId" falsy_keys start = (Resolved ∅, start).
Proof.
  apply (findRecordsByKeys_no_truthy_key holds_one env0 "leads" "placeId" falsy_keys start).
  repeat constructor.
Defined.

Lemma upsertByKey_lookup_refused_witness :
  let run := upsertByKey (Mock.always (Resolved not_found)) Mock.stringify env0
               "leads" "placeId" (VObj [("placeId", VStr "p1")]) start in
  run = (Rejected (Error "HTTP 404: Not Found"),
         mkWorld 1%nat [Fetch (lookup_request env0 "leads" "placeId" (VStr "p1")).1
                              (lookup_request env0 "leads" "placeId" (VStr "p1")).2])
  /\ methods (log run.2) = [None].
Proof.
  apply (upsertByKey_lookup_refused (Mock.always (Resolved not_found)) Mock.stringify env0
           "leads" "placeId" (VObj [("placeId", VStr "p1")]) (VStr "p1") 0%nat []
           (Resolved not_found) 1%nat).
  - reflexivity.
  - reflexivity.
  - reflexivity.
  - intros res [= <-]. split; reflexivity.
Defined.

(** Four functions handed to a pool of three: the fourth waits, and is
    called when the first settles. *)
Lemma pool_work_conserving_witness :
  let s := Pool.exec patient four_runs (Pool.create None) in
  Pool.active s = 3 /\ (0 < 3 -> Pool.running s <> []).
Proof.
  apply (pool_work_conserving patient None four_runs). discriminate.
Defined.

Lemma pool_never_starts_witness :
  let s := Pool.exec patient four_runs (Pool.create (Some 0)) in
  Pool.started s = [] /\ Pool.running s = []
  /\ Pool.q s = [1; 2; 3; 4]%nat /\ Pool.active s = 0.
Proof.
  apply (pool_never_starts patient (Some 0) four_runs). reflexivity.
Defined.

Lemma pool_hands_over_witness :
  let s := Pool.exec patient four_runs (Pool.create None) in
  let s' := Pool.step patient s (Pool.Settle 0) in
  exists more,
    Pool.started s' = Pool.started s ++ 4%nat :: more
    /\ more ++ Pool.q s' = []
    /\ (patient 4%nat = false -> more = [] /\ Pool.active s' = Pool.active s).
Proof.
  apply (pool_hands_over patient None four_runs 0 1%nat 4%nat []); reflexivity.
Defined.

Example pool_of_three :
  let s := Pool.exec patient (four_runs ++ [Pool.Settle 1]) (Pool.create None) in
  Pool.started s = [1; 2; 3; 4]%nat
  /\ Pool.running s = [1; 3; 4]%nat
  /\ Pool.q s = [] /\ Pool.active s = 3.
Proof. vm_compute. done. Qed.

Lemma validated_lead_keeps_key_witness :
  let fields := default VNull (Mapping.mapLeadFields Mock.stringify cafe) in
  get fields Mapping.leads_keyField = Some (VStr "p1")
  /\ truthy (get_opt cafe "placeId") = true
  /\ get fields "companyName" = Some (VStr "Cafe")
  /\ truthy (get_opt cafe "title") = true.
Proof.
  apply (validated_lead_keeps_key Mock.stringify cafe
           (default VNull (Mapping.mapLeadFields Mock.stringify cafe)));
    reflexivity.
Defined.

Example mapLeadFields_cafe :
  match Mapping.mapLeadFields Mock.stringify cafe with
  | Some fields =>
      get fields "openingHours" = Some (VStr "Monday: 9-17 | Tuesday: Closed")
      /\ get fields "totalScore" = Some (VNum 4)
      /\ get fields "website" = Some VNull
      /\ get fields "reviewsCount" = Some VNull
  | None => False
  end.
Proof. vm_compute. done. Qed.
